(** * jsoncons: BSON reader, type-directed decode and the JSON deserializer

    A shallow embedding of three pieces of the library:
    - [basic_bson_reader] (bson_reader.hpp): [read], [parse_e_list],
      [parse_some] and [decode_bson];
    - [conversion_traits] (conversion.hpp): the raising [decode] for
      vector-like containers, [std::array<T,N>] and map-like containers,
      and [encode];
    - [basic_json_deserializer] (json_deserializer.hpp): the frame stack and
      its handlers.

    Bytes are [Byte.byte]; C++ integers are [Z] with their wrap-around
    written out; exceptions are an explicit outcome. *)

From Stdlib Require Import ZArith List Lia Bool Strings.Byte.
From stdpp Require Import base option list strings gmap.
Import ListNotations.

Local Open Scope Z_scope.

(** ** Bytes and fixed-width integers *)

Definition byte_val (b : byte) : Z := Z.of_N (Byte.to_N b).

(** Two's-complement reading of a [w]-bit pattern. *)
Definition to_signed (w : Z) (x : Z) : Z :=
  if x <? 2 ^ (w - 1) then x else x - 2 ^ w.

(** Unsigned value of a byte string, least significant byte first. *)
Fixpoint le_unsigned (bs : list byte) : Z :=
  match bs with
  | [] => 0
  | b :: rest => byte_val b + 256 * le_unsigned rest
  end.

(** Modelled from the spec: [jsoncons::detail::from_little_endian<T>]
    (config/binary_detail.hpp is not among the sources).  The decoding table
    reads every multi-byte field little-endian: int32 and int64 as signed,
    the timestamp as unsigned.  A [double] is kept as its 64-bit pattern. *)
Definition from_little_endian_int32 (buf : list byte) : Z :=
  to_signed 32 (le_unsigned buf).
Definition from_little_endian_int64 (buf : list byte) : Z :=
  to_signed 64 (le_unsigned buf).
Definition from_little_endian_uint64 (buf : list byte) : Z :=
  le_unsigned buf.
Definition from_little_endian_double (buf : list byte) : Z :=
  le_unsigned buf.

Definition int32_min : Z := - 2 ^ 31.
Definition size_t_modulus : Z := 2 ^ 64.

(** ** Events received by a [json_content_handler] *)

Inductive semantic_tag_type := tag_none | tag_epoch_time.

Inductive event :=
| BeginObject
| EndObject
| BeginArray
| EndArray
| Name (s : list byte)
| StringValue (s : list byte) (tag : semantic_tag_type)
| ByteStringValue (b : list byte) (tag : semantic_tag_type)
| Int64Value (v : Z) (tag : semantic_tag_type)
| UInt64Value (v : Z) (tag : semantic_tag_type)
| DoubleValue (bits : Z) (tag : semantic_tag_type)
| BoolValue (b : bool) (tag : semantic_tag_type)
| NullValue (tag : semantic_tag_type).

(** ** The byte source *)

(** Modelled from the spec: the Byte Source ([jsoncons::detail::buffer_source],
    detail/source.hpp, is not among the sources).  [read(buffer, n)] hands
    out at most [n] bytes and reports how many it really delivered (the
    length of the first component); [get(c)] delivers one byte or reports 0
    at end of input.  A source is the list of bytes not yet consumed. *)
Definition source_read (n : nat) (src : list byte) : list byte * list byte :=
  (take n src, drop n src).

Definition source_get (src : list byte) : option byte * list byte :=
  match src with
  | [] => (None, [])
  | c :: rest => (Some c, rest)
  end.

(** The inner loop of [parse_e_list]:
    [while (source_.get(c) > 0 && c != 0) s.push_back(c);] *)
Fixpoint read_cstring (src : list byte) : list byte * list byte :=
  match src with
  | [] => ([], [])
  | c :: rest =>
      if Byte.eqb c x00 then ([], rest)
      else let '(s, r) := read_cstring rest in (c :: s, r)
  end.

(** ** Type codes *)

(** The case labels of [parse_some] come from [bson_format]
    (bson_detail.hpp, not among the sources); the reader is parametric in
    them. *)
Record bson_format := {
  double_cd : byte;
  string_cd : byte;
  document_cd : byte;
  array_cd : byte;
  null_cd : byte;
  bool_cd : byte;
  int32_cd : byte;
  timestamp_cd : byte;
  int64_cd : byte;
  binary_cd : byte
}.

Definition case_labels (fmt : bson_format) : list byte :=
  [double_cd fmt; string_cd fmt; document_cd fmt; array_cd fmt; null_cd fmt;
   bool_cd fmt; int32_cd fmt; timestamp_cd fmt; int64_cd fmt; binary_cd fmt].

(** Modelled from the spec: the binary wire format is the BSON byte layout,
    whose element type codes are these. *)
Definition bson_codes : bson_format := {|
  double_cd := x01;
  string_cd := x02;
  document_cd := x03;
  array_cd := x04;
  null_cd := x0a;
  bool_cd := x08;
  int32_cd := x10;
  timestamp_cd := x11;
  int64_cd := x12;
  binary_cd := x05
|}.

Inductive bson_structure_type := document | array.

(** [switch (type)] in [parse_some]: the case whose label equals [type], or
    none (the switch has no [default]).  A C++ switch has pairwise distinct
    labels, so the order of the comparisons is immaterial for it. *)
Inductive case_label :=
| case_double | case_string | case_document | case_array | case_null
| case_bool | case_int32 | case_timestamp | case_int64 | case_binary.

Definition switch_on (fmt : bson_format) (type : byte) : option case_label :=
  if Byte.eqb type (double_cd fmt) then Some case_double
  else if Byte.eqb type (string_cd fmt) then Some case_string
  else if Byte.eqb type (document_cd fmt) then Some case_document
  else if Byte.eqb type (array_cd fmt) then Some case_array
  else if Byte.eqb type (null_cd fmt) then Some case_null
  else if Byte.eqb type (bool_cd fmt) then Some case_bool
  else if Byte.eqb type (int32_cd fmt) then Some case_int32
  else if Byte.eqb type (timestamp_cd fmt) then Some case_timestamp
  else if Byte.eqb type (int64_cd fmt) then Some case_int64
  else if Byte.eqb type (binary_cd fmt) then Some case_binary
  else None.

(** ** Reader state and outcomes *)

(** The members of [basic_bson_reader] together with the caller's
    [std::error_code] slot that [read], [parse_e_list] and [parse_some] pass
    along by reference ([ec = 0] means no error).  [handler_] is the list of
    calls the content handler has received, oldest first. *)
Record reader_state := {
  source_ : list byte;
  handler_ : list event;
  column_ : Z;
  nesting_depth_ : Z;
  ec : Z
}.

Inductive exn :=
| bson_error (code : Z)
| length_error.

(** [Undefined] is signed overflow of [len - 1]; [OutOfFuel] is the
    recursion budget of the embedding running out. *)
Inductive outcome :=
| Returned (st : reader_state)
| Thrown (e : exn) (st : reader_state)
| Undefined
| OutOfFuel.

Definition set_source (src : list byte) (st : reader_state) : reader_state :=
  {| source_ := src; handler_ := handler_ st; column_ := column_ st;
     nesting_depth_ := nesting_depth_ st; ec := ec st |}.

Definition emit (e : event) (st : reader_state) : reader_state :=
  {| source_ := source_ st; handler_ := handler_ st ++ [e];
     column_ := column_ st; nesting_depth_ := nesting_depth_ st; ec := ec st |}.

(** [++nesting_depth_] and [--nesting_depth_] on a [size_t]. *)
Definition incr_depth (st : reader_state) : reader_state :=
  {| source_ := source_ st; handler_ := handler_ st; column_ := column_ st;
     nesting_depth_ := (nesting_depth_ st + 1) mod size_t_modulus;
     ec := ec st |}.

Definition decr_depth (st : reader_state) : reader_state :=
  {| source_ := source_ st; handler_ := handler_ st; column_ := column_ st;
     nesting_depth_ := (nesting_depth_ st - 1) mod size_t_modulus;
     ec := ec st |}.

(** A fixed-width field: [source_.read(buf, n) != n] throws [bson_error(0)],
    otherwise the continuation gets the buffer. *)
Definition read_fixed (n : nat) (st : reader_state)
    (k : list byte -> reader_state -> outcome) : outcome :=
  let '(buf, src) := source_read n (source_ st) in
  if negb (Nat.eqb (length buf) n) then Thrown (bson_error 0) (set_source src st)
  else k buf (set_source src st).

Section Reader.

Variable fmt : bson_format.

Fixpoint read (fuel : nat) (st : reader_state) {struct fuel} : outcome :=
  match fuel with
  | O => OutOfFuel
  | S fuel' =>
      read_fixed 4 st (fun _ st0 =>
        let st1 := incr_depth (emit BeginObject st0) in
        match parse_e_list fuel' document st1 with
        | Returned st2 => Returned (decr_depth (emit EndObject st2))
        | o => o
        end)
  end

with parse_e_list (fuel : nat) (type : bson_structure_type) (st : reader_state)
    {struct fuel} : outcome :=
  match fuel with
  | O => OutOfFuel
  | S fuel' =>
      match source_get (source_ st) with
      | (None, src) => Returned (set_source src st)
      | (Some t, src) =>
          if Byte.eqb t x00 then Returned (set_source src st)
          else
            let '(s, src') := read_cstring src in
            let st1 := set_source src' st in
            let st2 := match type with
                       | document => emit (Name s) st1
                       | array => st1
                       end in
            match parse_some fuel' t st2 with
            | Returned st3 => parse_e_list fuel' type st3
            | o => o
            end
      end
  end

with parse_some (fuel : nat) (type : byte) (st : reader_state)
    {struct fuel} : outcome :=
  match fuel with
  | O => OutOfFuel
  | S fuel' =>
      match switch_on fmt type with
      | Some case_double =>
          read_fixed 8 st (fun buf st0 =>
            let res := from_little_endian_double buf in
            Returned (emit (DoubleValue res tag_none) st0))
      | Some case_string =>
          read_fixed 4 st (fun buf st0 =>
            let len := from_little_endian_int32 buf in
            if len =? int32_min then Undefined
            else if len - 1 <? 0 then Thrown length_error st0
            else
              let '(s, src) := source_read (Z.to_nat (len - 1)) (source_ st0) in
              if negb (Z.of_nat (length s) =? len - 1)
              then Thrown (bson_error 0) (set_source src st0)
              else
                let '(_, src') := source_get src in
                Returned (emit (StringValue s tag_none) (set_source src' st0)))
      | Some case_document =>
          match read fuel' st with
          | Returned st1 =>
              if negb (ec st1 =? 0) then Returned st1 (* return *)
              else Returned st1 (* break *)
          | o => o
          end
      | Some case_array =>
          read_fixed 4 st (fun _ st0 =>
            let st1 := incr_depth (emit BeginArray st0) in
            match parse_e_list fuel' document st1 with
            | Returned st2 => Returned (decr_depth (emit EndArray st2))
            | o => o
            end)
      | Some case_null =>
          Returned (emit (NullValue tag_none) st)
      | Some case_bool =>
          match source_get (source_ st) with
          | (None, src) => Thrown (bson_error 0) (set_source src st)
          | (Some val, src) =>
              Returned (emit (BoolValue (negb (Byte.eqb val x00)) tag_none)
                             (set_source src st))
          end
      | Some case_int32 =>
          read_fixed 4 st (fun buf st0 =>
            let val := from_little_endian_int32 buf in
            Returned (emit (Int64Value val tag_none) st0))
      | Some case_timestamp =>
          read_fixed 8 st (fun buf st0 =>
            let val := from_little_endian_uint64 buf in
            Returned (emit (UInt64Value val tag_epoch_time) st0))
      | Some case_int64 =>
          read_fixed 8 st (fun buf st0 =>
            let val := from_little_endian_int64 buf in
            Returned (emit (Int64Value val tag_none) st0))
      | Some case_binary =>
          read_fixed 4 st (fun buf st0 =>
            let len := from_little_endian_int32 buf in
            if len <? 0 then Thrown length_error st0
            else
              let '(v, src) := source_read (Z.to_nat len) (source_ st0) in
              if negb (Z.of_nat (length v) =? len)
              then Thrown (bson_error 0) (set_source src st0)
              else Returned (emit (ByteStringValue v tag_none) (set_source src st0)))
      | None => Returned st
      end
  end.

End Reader.

(** ** [decode_bson] *)

Inductive decode_result :=
| Decoded (evs : list event)
| ParseError (code line column : Z)
| Raised (e : exn)
| DecodeUndefined
| DecodeOutOfFuel.

Definition initial_reader (v : list byte) : reader_state :=
  {| source_ := v; handler_ := []; column_ := 1; nesting_depth_ := 0; ec := 0 |}.

Definition line_number (st : reader_state) : Z := 1.
Definition column_number (st : reader_state) : Z := column_ st.

(** Recursion budget that [read] never exhausts on [n] bytes of input. *)
Definition enough_fuel (n : nat) : nat := (3 * n + 3)%nat.

(** [decoder.get_result()] is a function of the calls the decoder received;
    [Decoded] carries those calls. *)
Definition decode_bson (fmt : bson_format) (v : list byte) : decode_result :=
  match read fmt (enough_fuel (length v)) (initial_reader v) with
  | Returned st =>
      if negb (ec st =? 0)
      then ParseError (ec st) (line_number st) (column_number st)
      else Decoded (handler_ st)
  | Thrown e _ => Raised e
  | Undefined => DecodeUndefined
  | OutOfFuel => DecodeOutOfFuel
  end.

(** ** Nesting of an event stream *)

(** The open containers after a run of events: [true] for an object,
    [false] for an array, innermost first.  An end event that does not close
    the innermost open container is a mismatch. *)
Definition nest_step (open : list bool) (e : event) : option (list bool) :=
  match e with
  | BeginObject => Some (true :: open)
  | BeginArray => Some (false :: open)
  | EndObject => match open with true :: o => Some o | _ => None end
  | EndArray => match open with false :: o => Some o | _ => None end
  | _ => Some open
  end.

Fixpoint nest_run (open : list bool) (evs : list event) : option (list bool) :=
  match evs with
  | [] => Some open
  | e :: rest =>
      match nest_step open e with
      | Some o => nest_run o rest
      | None => None
      end
  end.

Definition balanced (evs : list event) : Prop :=
  forall open, nest_run open evs = Some open.

(** ** Event iterators and [conversion_traits::decode] *)

(** Modelled from the spec: the Event Iterators ([basic_staj_array_iterator]
    and [basic_staj_object_iterator], staj_iterator.hpp, are not among the
    sources).  An iterator presents the event stream as a single-pass lazy
    sequence of decoded elements: the elements still to come, then either the
    matching end event ([seq_error = None]) or the error at which the stream
    breaks off.  The iterator sits on the first of [seq_items]; it equals the
    end iterator when none is left.

    Only the raising overloads of [decode] are embedded.  The overloads
    taking a [std::error_code&] end their loop body with
    [it->increment(ec)], a call through [operator->] on the current element
    (the map-like one reads [it->first] and [it->second] through the same
    operator, and builds a [basic_staj_array_iterator] over the pairs);
    the element types have no such member, and the iterator itself is
    never advanced. *)
Record staj_sequence (T : Type) := {
  seq_items : list T;
  seq_error : option Z
}.
Arguments seq_items {T} _.
Arguments seq_error {T} _.

(** A stream describing exactly the elements [xs]. *)
Definition stream_of {T : Type} (xs : list T) : staj_sequence T :=
  {| seq_items := xs; seq_error := None |}.

(** Result of a raising [decode]. *)
Inductive raising (A : Type) :=
| Value (v : A)
| Raise (code : Z).
Arguments Value {A} _.
Arguments Raise {A} _.

Section FixedArray.

Variable T : Type.
(** The value of a default-initialized element of [std::array<T,N> v;]. *)
Variable default_init : T.

(** The body of the range-for of the raising overload, over the elements
    still to come: [if (i < N) { v[i++] = item; }]. *)
Fixpoint array_loop (N : nat) (items : list T) (i : nat) (v : list T) : list T :=
  match items with
  | [] => v
  | item :: rest =>
      if (i <? N)%nat then array_loop N rest (S i) (<[i := item]> v)
      else array_loop N rest i v
  end.

Definition decode_array (N : nat) (reader : staj_sequence T) : raising (list T) :=
  let v := replicate N default_init in
  let v' := array_loop N (seq_items reader) 0 v in
  match seq_error reader with
  | Some e => Raise e
  | None => Value v'
  end.

End FixedArray.

Section MapLike.

Context {K : Type} `{Countable K} {V : Type}.

(** [m.emplace(k, v)] on a container with unique keys ([std::map],
    [std::unordered_map]): the element is inserted only if the container
    holds none with that key. *)
Definition emplace (k : K) (v : V) (m : gmap K V) : gmap K V :=
  match m !! k with
  | Some _ => m
  | None => <[k := v]> m
  end.

(** [for (const auto& kv : it) { m.emplace(kv.first,kv.second); }] *)
Fixpoint map_loop (items : list (K * V)) (m : gmap K V) : gmap K V :=
  match items with
  | [] => m
  | kv :: rest => map_loop rest (emplace kv.1 kv.2 m)
  end.

Definition decode_map (reader : staj_sequence (K * V)) : raising (gmap K V) :=
  let m := map_loop (seq_items reader) ∅ in
  match seq_error reader with
  | Some e => Raise e
  | None => Value m
  end.

End MapLike.

(** ** [basic_json_deserializer] *)

(** The value a finished frame becomes.  A float is kept as its bit
    pattern. *)
#[warnings="-register-all"] Inductive json :=
| json_null
| json_bool (b : bool)
| json_integer (v : Z)
| json_unsigned (v : Z)
| json_float (bits : Z)
| json_string (s : string)
| json_array (elements : list json)
| json_object (members : list (string * json)).

(** [struct stack_item].  The constructor allocates [object_] or [array_]
    according to [is_object_] and leaves the other pointer uninitialized:
    [None] here. *)
Record stack_item := {
  name_ : string;
  is_object_ : bool;
  object_ : option (list (string * json));
  array_ : option (list json);
  minimum_structure_capacity_ : Z
}.

Definition new_stack_item (is_object : bool) (minimum_structure_capacity : Z)
    : stack_item :=
  {| name_ := EmptyString;
     is_object_ := is_object;
     object_ := if is_object then Some [] else None;
     array_ := if is_object then None else Some [];
     minimum_structure_capacity_ := minimum_structure_capacity |}.

Definition is_object (it : stack_item) : bool := is_object_ it.
Definition is_array (it : stack_item) : bool := negb (is_object_ it).

(** [stack_] is written innermost frame first: the head of the list is
    [stack_.back()]. *)
Record deserializer := {
  root_ : json;
  stack_ : list stack_item
}.

Section Deserializer.

(** [json_object::sort_members] and the state [std::move] leaves a name in
    (json_structures.hpp and the standard library are not among the
    sources). *)
Variable sort_members : list (string * json) -> list (string * json).
Variable moved_from : string -> string.

(** The block every handler ends with:
    [if (stack_.back().is_object())
       stack_.back().object_->push_back(std::move(stack_.back().name_), val);
     else stack_.back().array_->push_back(val);]
    on the frame [top = stack_.back()].  [push_back] appends.  Dereferencing
    an uninitialized pointer is undefined: [None]. *)
Definition push_back_value (val : json) (top : stack_item) : option stack_item :=
  if is_object top then
    match object_ top with
    | Some members =>
        Some {| name_ := moved_from (name_ top);
                is_object_ := is_object_ top;
                object_ := Some (members ++ [(name_ top, val)]);
                array_ := array_ top;
                minimum_structure_capacity_ := minimum_structure_capacity_ top |}
    | None => None
    end
  else
    match array_ top with
    | Some elements =>
        Some {| name_ := name_ top;
                is_object_ := is_object_ top;
                object_ := object_ top;
                array_ := Some (elements ++ [val]);
                minimum_structure_capacity_ := minimum_structure_capacity_ top |}
    | None => None
    end.

(** A scalar handler: [stack_.back()] of an empty stack is undefined. *)
Definition push_scalar (val : json) (d : deserializer) : option deserializer :=
  match stack_ d with
  | [] => None
  | top :: rest =>
      top' ← push_back_value val top;
      Some {| root_ := root_ d; stack_ := top' :: rest |}
  end.

Definition do_begin_object (minimum_structure_capacity : Z) (d : deserializer)
    : option deserializer :=
  Some {| root_ := root_ d;
          stack_ := new_stack_item true minimum_structure_capacity :: stack_ d |}.

Definition do_begin_array (minimum_structure_capacity : Z) (d : deserializer)
    : option deserializer :=
  Some {| root_ := root_ d;
          stack_ := new_stack_item false minimum_structure_capacity :: stack_ d |}.

(** After [stack_.pop_back()]: hand [val] to the new top frame, or make it
    the root when no frame is left. *)
Definition after_pop (val : json) (root : json) (rest : list stack_item)
    : option deserializer :=
  match rest with
  | parent :: rest' =>
      parent' ← push_back_value val parent;
      Some {| root_ := root; stack_ := parent' :: rest' |}
  | [] => Some {| root_ := val; stack_ := [] |}
  end.

Definition do_end_object (d : deserializer) : option deserializer :=
  match stack_ d with
  | [] => None
  | top :: rest =>
      match object_ top with
      | Some members =>
          let val := json_object (sort_members members) in
          after_pop val (root_ d) rest
      | None => None
      end
  end.

Definition do_end_array (d : deserializer) : option deserializer :=
  match stack_ d with
  | [] => None
  | top :: rest =>
      match array_ top with
      | Some elements =>
          let val := json_array elements in
          after_pop val (root_ d) rest
      | None => None
      end
  end.

Definition do_name (p : string) (d : deserializer) : option deserializer :=
  match stack_ d with
  | [] => None
  | top :: rest =>
      Some {| root_ := root_ d;
              stack_ := {| name_ := p;
                           is_object_ := is_object_ top;
                           object_ := object_ top;
                           array_ := array_ top;
                           minimum_structure_capacity_ :=
                             minimum_structure_capacity_ top |} :: rest |}
  end.

Definition do_string_value (p : string) := push_scalar (json_string p).
Definition do_integer_value (value : Z) := push_scalar (json_integer value).
Definition do_unsigned_integer_value (value : Z) := push_scalar (json_unsigned value).
Definition do_float_value (value : Z) := push_scalar (json_float value).
Definition do_bool_value (value : bool) := push_scalar (json_bool value).
Definition do_null_value := push_scalar json_null.

End Deserializer.

(** ** [conversion_traits::decode] for vector-like containers *)

Section VectorLike.

Variable T : Type.

(** [for (const auto& item : it) { v.push_back(item); }] *)
Fixpoint vector_loop (items : list T) (v : list T) : list T :=
  match items with
  | [] => v
  | item :: rest => vector_loop rest (v ++ [item])
  end.

Definition decode_vector (reader : staj_sequence T) : raising (list T) :=
  let v := vector_loop (seq_items reader) [] in
  match seq_error reader with
  | Some e => Raise e
  | None => Value v
  end.

End VectorLike.

(** ** [conversion_traits::encode] *)

(** What a [basic_json_content_handler] is called with: an event, or
    [flush()].  A serializer is the list of calls it has received, oldest
    first. *)
Inductive call :=
| Event (e : event)
| Flush.

Definition events_of_calls (cs : list call) : list event :=
  omap (fun c => match c with Event e => Some e | Flush => None end) cs.

Section Encode.

Variable T : Type.
(** [conversion_traits<value_type>::encode(x, serializer)] of the element
    (or mapped) type. *)
Variable encode_value : T -> list call -> list call.

(** [for (auto it = std::begin(val); it != std::end(val); ++it)
       conversion_traits<value_type>::encode( *it, serializer );] *)
Fixpoint encode_each (val : list T) (serializer : list call) : list call :=
  match val with
  | [] => serializer
  | x :: rest => encode_each rest (encode_value x serializer)
  end.

(** [encode] of a vector-like container; a container is the list of its
    elements in iteration order. *)
Definition encode_vector (val : list T) (serializer : list call) : list call :=
  let s1 := serializer ++ [Event BeginArray] in
  let s2 := encode_each val s1 in
  let s3 := s2 ++ [Event EndArray] in
  s3 ++ [Flush].

(** [encode] of a [std::array<T,N>]: the same statements. *)
Definition encode_array (val : list T) (serializer : list call) : list call :=
  let s1 := serializer ++ [Event BeginArray] in
  let s2 := encode_each val s1 in
  let s3 := s2 ++ [Event EndArray] in
  s3 ++ [Flush].

(** [serializer.name(it->first);
     conversion_traits<mapped_type>::encode(it->second,serializer);] *)
Fixpoint encode_entries (val : list (list byte * T)) (serializer : list call)
    : list call :=
  match val with
  | [] => serializer
  | kv :: rest =>
      encode_entries rest (encode_value kv.2 (serializer ++ [Event (Name kv.1)]))
  end.

(** [encode] of a map-like container; a container is the list of its
    entries in iteration order. *)
Definition encode_map (val : list (list byte * T)) (serializer : list call)
    : list call :=
  let s1 := serializer ++ [Event BeginObject] in
  let s2 := encode_entries val s1 in
  let s3 := s2 ++ [Event EndObject] in
  s3 ++ [Flush].

End Encode.

(** One position of a [std::tuple<E...>]: its type, the [encode] of that
    type, and the element. *)
Record tuple_element := {
  element_type : Type;
  element_encode : element_type -> list call -> list call;
  element_value : element_type
}.

(** [tuple_helper<Pos, Tuple>::encode]: the element at index
    [std::tuple_size<Tuple>::value - Pos], then [next::encode];
    [tuple_helper<0, Tuple>] does nothing.  An index outside the tuple does
    not compile; the model leaves the handler alone there. *)
Fixpoint tuple_helper_encode (Pos : nat) (tuple : list tuple_element)
    (handler : list call) : list call :=
  match Pos with
  | O => handler
  | S next =>
      match tuple !! (length tuple - Pos)%nat with
      | Some el =>
          tuple_helper_encode next tuple
            (element_encode el (element_value el) handler)
      | None => handler
      end
  end.

Definition encode_tuple (val : list tuple_element) (serializer : list call)
    : list call :=
  let s1 := serializer ++ [Event BeginArray] in
  let s2 := tuple_helper_encode (length val) val s1 in
  s2 ++ [Event EndArray].

(** ** Driving the deserializer *)

(** The calls of [basic_json_input_handler] that reach the [do_] handlers. *)
Inductive input_event :=
| begin_object (minimum_structure_capacity : Z)
| end_object
| begin_array (minimum_structure_capacity : Z)
| end_array
| name (p : string)
| string_value (p : string)
| integer_value (value : Z)
| unsigned_integer_value (value : Z)
| float_value (value : Z)
| bool_value (value : bool)
| null_value.

Section Feed.

Variable sort_members : list (string * json) -> list (string * json).
Variable moved_from : string -> string.

Definition handle (e : input_event) (d : deserializer) : option deserializer :=
  match e with
  | begin_object c => do_begin_object c d
  | end_object => do_end_object sort_members moved_from d
  | begin_array c => do_begin_array c d
  | end_array => do_end_array moved_from d
  | name p => do_name p d
  | string_value p => do_string_value moved_from p d
  | integer_value v => do_integer_value moved_from v d
  | unsigned_integer_value v => do_unsigned_integer_value moved_from v d
  | float_value v => do_float_value moved_from v d
  | bool_value b => do_bool_value moved_from b d
  | null_value => do_null_value moved_from d
  end.

Fixpoint feed (evs : list input_event) (d : deserializer) : option deserializer :=
  match evs with
  | [] => Some d
  | e :: rest =>
      match handle e d with
      | Some d' => feed rest d'
      | None => None
      end
  end.

(** The calls a producer makes for a value: a scalar is one call, a
    container is bracketed, every member is preceded by its name. *)
Fixpoint events_of (v : json) : list input_event :=
  match v with
  | json_null => [null_value]
  | json_bool b => [bool_value b]
  | json_integer z => [integer_value z]
  | json_unsigned z => [unsigned_integer_value z]
  | json_float f => [float_value f]
  | json_string s => [string_value s]
  | json_array elements =>
      begin_array 0 :: concat (map events_of elements) ++ [end_array]
  | json_object members =>
      begin_object 0
        :: concat (map (fun kv => match kv with
                                  | (k, x) => name k :: events_of x
                                  end) members)
        ++ [end_object]
  end.

(** The value with [sort_members] applied to the members of every object
    in it, innermost first. *)
Fixpoint sorted_json (v : json) : json :=
  match v with
  | json_array elements => json_array (map sorted_json elements)
  | json_object members =>
      json_object (sort_members
                     (map (fun kv => match kv with
                                     | (k, x) => (k, sorted_json x)
                                     end) members))
  | scalar => scalar
  end.

End Feed.

(** The frame holds the container its [is_object_] says, as
    [new_stack_item] sets it up. *)
Definition frame_ok (it : stack_item) : Prop :=
  if is_object_ it then is_Some (object_ it) /\ array_ it = None
  else is_Some (array_ it) /\ object_ it = None.

(** ** More predicates on reader outcomes *)

(** Where a call that threw has left the handler and [nesting_depth_]:
    the events delivered open the containers [opened] (innermost first) and
    close nothing else; [nesting_depth_] has grown by their number. *)
Definition left_open (st st' : reader_state) (opened : list bool) : Prop :=
  (exists evs, handler_ st' = handler_ st ++ evs
               /\ forall open, nest_run open evs = Some (opened ++ open))
  /\ nesting_depth_ st'
     = (nesting_depth_ st + Z.of_nat (length opened)) mod size_t_modulus.

(** [column_] after a call, whether it returned or threw. *)
Definition column_kept (st : reader_state) (o : outcome) : Prop :=
  match o with
  | Returned st' | Thrown _ st' => column_ st' = column_ st
  | Undefined | OutOfFuel => True
  end.

(** By how much a call changes the number of open frames. *)
Definition depth_change (e : input_event) : Z :=
  match e with
  | begin_object _ | begin_array _ => 1
  | end_object | end_array => -1
  | _ => 0
  end.

(** The calls the deserializer has no defined behaviour for on a given
    stack: anything but a begin with no frame open ([stack_.back()] of an
    empty vector), and an end of the other kind than the top frame (the
    pointer it dereferences was never set). *)
Definition undefined_at (e : input_event) (stack : list stack_item) : Prop :=
  match e, stack with
  | begin_object _, _ | begin_array _, _ => False
  | _, [] => True
  | end_object, top :: _ => is_object_ top = false
  | end_array, top :: _ => is_object_ top = true
  | _, _ :: _ => False
  end.

(** ** Predicates used in the statements *)

Definition in_size_t (d : Z) : Prop := 0 <= d < size_t_modulus.

(** What a call that returns normally has done to the handler and to
    [nesting_depth_]. *)
Definition preserves (st st' : reader_state) : Prop :=
  (exists evs, handler_ st' = handler_ st ++ evs /\ balanced evs)
  /\ nesting_depth_ st' = nesting_depth_ st.

(** The caller's [ec] after a call, whether it returned or threw. *)
Definition ec_untouched (st : reader_state) (o : outcome) : Prop :=
  match o with
  | Returned st' | Thrown _ st' => ec st' = ec st
  | Undefined | OutOfFuel => True
  end.

(** A call that returns has not put bytes back. *)
Definition shrinks (st st' : reader_state) : Prop :=
  (length (source_ st') <= length (source_ st))%nat.

(** Where the value [val] of a popped frame has gone, [rest] being the
    frames below it: to the root when there is none; otherwise to the end of
    the new top frame, as a member under that frame's pending name when it
    is an object, as an element when it is an array. *)
Definition handed_up (result : option deserializer) (root val : json)
    (rest : list stack_item) : Prop :=
  (rest = [] -> result = Some {| root_ := val; stack_ := [] |})
  /\ (forall parent rest' members,
        rest = parent :: rest' ->
        is_object parent = true -> object_ parent = Some members ->
        exists parent',
          result = Some {| root_ := root; stack_ := parent' :: rest' |}
          /\ object_ parent' = Some (members ++ [(name_ parent, val)])
          /\ is_object parent' = true
          /\ array_ parent' = array_ parent)
  /\ (forall parent rest' elements,
        rest = parent :: rest' ->
        is_object parent = false -> array_ parent = Some elements ->
        exists parent',
          result = Some {| root_ := root; stack_ := parent' :: rest' |}
          /\ array_ parent' = Some (elements ++ [val])
          /\ is_object parent' = false
          /\ object_ parent' = object_ parent
          /\ name_ parent' = name_ parent).

(** * Properties *)

(** ** Bytes and the switch *)

#[global] Instance byte_eq_decision : EqDecision byte.
Proof.
  intros x y. destruct (Byte.eqb x y) eqn:E.
  - left. by apply byte_dec_bl.
  - right. by apply eqb_false.
Defined.

Lemma byte_eqb_refl (b : byte) : Byte.eqb b b = true.
Proof. by apply byte_dec_lb. Qed.

Lemma byte_eqb_ne (a b : byte) : a <> b -> Byte.eqb a b = false.
Proof.
  intros Hne. destruct (Byte.eqb a b) eqn:E; [|done].
  apply byte_dec_bl in E. contradiction.
Qed.

Lemma byte_val_range (b : byte) : 0 <= byte_val b < 256.
Proof.
  unfold byte_val. pose proof (to_N_bounded b). lia.
Qed.

Lemma labels_ne (fmt : bson_format) (i j : nat) (x y : byte) :
  NoDup (case_labels fmt) ->
  case_labels fmt !! i = Some x -> case_labels fmt !! j = Some y ->
  i <> j -> x <> y.
Proof.
  intros Hnd Hi Hj Hij ->. apply Hij. by eapply NoDup_lookup.
Qed.

Ltac label_index a :=
  lazymatch a with
  | double_cd _ => constr:(0%nat)
  | string_cd _ => constr:(1%nat)
  | document_cd _ => constr:(2%nat)
  | array_cd _ => constr:(3%nat)
  | null_cd _ => constr:(4%nat)
  | bool_cd _ => constr:(5%nat)
  | int32_cd _ => constr:(6%nat)
  | timestamp_cd _ => constr:(7%nat)
  | int64_cd _ => constr:(8%nat)
  | binary_cd _ => constr:(9%nat)
  end.

(** Decides every comparison between two case labels in the goal. *)
Ltac decide_labels Hnd :=
  repeat match goal with
  | |- context [Byte.eqb ?a ?a] => rewrite (byte_eqb_refl a)
  | |- context [Byte.eqb ?a ?b] =>
      let i := label_index a in
      let j := label_index b in
      rewrite (byte_eqb_ne a b
                 (labels_ne _ i j a b Hnd eq_refl eq_refl ltac:(lia)))
  end.

Section SwitchLabels.

Variable fmt : bson_format.
Hypothesis distinct : NoDup (case_labels fmt).

Lemma switch_on_string : switch_on fmt (string_cd fmt) = Some case_string.
Proof. unfold switch_on. by decide_labels distinct. Qed.

Lemma switch_on_document : switch_on fmt (document_cd fmt) = Some case_document.
Proof. unfold switch_on. by decide_labels distinct. Qed.

Lemma switch_on_array : switch_on fmt (array_cd fmt) = Some case_array.
Proof. unfold switch_on. by decide_labels distinct. Qed.

Lemma switch_on_int32 : switch_on fmt (int32_cd fmt) = Some case_int32.
Proof. unfold switch_on. by decide_labels distinct. Qed.

End SwitchLabels.

Lemma switch_on_unlisted (fmt : bson_format) (type : byte) :
  type ∉ case_labels fmt -> switch_on fmt type = None.
Proof.
  intros Hnot. unfold switch_on.
  repeat match goal with
  | |- context [Byte.eqb type ?l] =>
      rewrite (byte_eqb_ne type l);
        [| intros ->; apply Hnot; unfold case_labels; set_solver]
  end.
  done.
Qed.

Lemma bson_codes_distinct : NoDup (case_labels bson_codes).
Proof. apply (bool_decide_unpack _). by vm_compute. Qed.

(** ** The scalar cases of [parse_some] *)

Lemma le_unsigned_4 (b0 b1 b2 b3 : byte) :
  le_unsigned [b0; b1; b2; b3] =
  byte_val b0 + 2 ^ 8 * byte_val b1 + 2 ^ 16 * byte_val b2 + 2 ^ 24 * byte_val b3.
Proof. simpl. lia. Qed.

Lemma le_unsigned_4_range (b0 b1 b2 b3 : byte) :
  0 <= le_unsigned [b0; b1; b2; b3] < 2 ^ 32.
Proof.
  rewrite le_unsigned_4.
  pose proof (byte_val_range b0). pose proof (byte_val_range b1).
  pose proof (byte_val_range b2). pose proof (byte_val_range b3). lia.
Qed.

Lemma to_signed_32 (u : Z) :
  to_signed 32 u = if u <? 2 ^ 31 then u else u - 2 ^ 32.
Proof. reflexivity. Qed.

Lemma to_signed_32_range (u : Z) :
  0 <= u < 2 ^ 32 -> - 2 ^ 31 <= to_signed 32 u < 2 ^ 31.
Proof. intros Hu. rewrite to_signed_32. case_match; lia. Qed.

Lemma to_signed_32_mod (u : Z) :
  0 <= u < 2 ^ 32 -> to_signed 32 u mod 2 ^ 32 = u.
Proof.
  intros Hu. rewrite to_signed_32. case_match.
  - apply Z.mod_small. lia.
  - replace (u - 2 ^ 32) with (u + (-1) * 2 ^ 32) by lia.
    rewrite Z_mod_plus_full. apply Z.mod_small. lia.
Qed.

(** The upper bits of the 64-bit pattern of a sign-extended value repeat
    bit 31 of the 32-bit pattern. *)
Lemma to_signed_32_upper_bits (u i : Z) :
  0 <= u < 2 ^ 32 -> 31 <= i < 64 ->
  Z.testbit (to_signed 32 u mod 2 ^ 64) i = Z.testbit u 31.
Proof.
  intros Hu Hi. rewrite Z.mod_pow2_bits_low by lia.
  rewrite to_signed_32. destruct (u <? 2 ^ 31) eqn:E.
  - apply Z.ltb_lt in E.
    destruct (Z.eq_dec u 0) as [->|Hz]; [by rewrite !Z.testbit_0_l|].
    assert (Z.log2 u < 31) by (apply Z.log2_lt_pow2; lia).
    rewrite !Z.bits_above_log2; [done | lia.. ].
  - apply Z.ltb_ge in E.
    rewrite Z.bits_above_log2_neg; [| lia |].
    + symmetry. apply Z.testbit_true; [lia|].
      assert (u / 2 ^ 31 = 1) as ->; [|done].
      symmetry. apply (Z.div_unique u (2 ^ 31) 1 (u - 2 ^ 31)); lia.
    + destruct (Z.eq_dec (Z.pred (- (u - 2 ^ 32))) 0) as [->|Hz]; [simpl; lia|].
      apply Z.lt_le_trans with 31; [|lia]. apply Z.log2_lt_pow2; lia.
Qed.

(** C8: the int32 case reads four bytes little-endian as a signed 32-bit
    integer and hands it to [int64_value] widened by sign extension: the
    value lies in the int32 range, has the four bytes as its low 32 bits, and
    bits 31..63 of its 64-bit pattern all repeat bit 31.  Four bytes [0xff]
    give the 64-bit value -1. *)
Theorem int32_widened_by_sign_extension
    (fmt : bson_format) (fuel : nat) (st : reader_state)
    (b0 b1 b2 b3 : byte) (rest : list byte) :
  NoDup (case_labels fmt) ->
  source_ st = b0 :: b1 :: b2 :: b3 :: rest ->
  let u := byte_val b0 + 2 ^ 8 * byte_val b1 + 2 ^ 16 * byte_val b2
           + 2 ^ 24 * byte_val b3 in
  exists v : Z,
    parse_some fmt (S fuel) (int32_cd fmt) st
      = Returned (emit (Int64Value v tag_none) (set_source rest st))
    /\ - 2 ^ 31 <= v < 2 ^ 31
    /\ v mod 2 ^ 32 = u
    /\ (forall i, 31 <= i < 64 -> Z.testbit (v mod 2 ^ 64) i = Z.testbit u 31)
    /\ (b0 = xff -> b1 = xff -> b2 = xff -> b3 = xff -> v = -1).
Proof.
  intros Hnd Hsrc u.
  exists (from_little_endian_int32 [b0; b1; b2; b3]).
  pose proof (le_unsigned_4_range b0 b1 b2 b3) as Hr.
  unfold from_little_endian_int32. subst u. rewrite <- le_unsigned_4.
  split; [|split; [|split; [|split]]].
  - simpl. rewrite switch_on_int32 by done.
    unfold read_fixed, source_read. by rewrite Hsrc.
  - by apply to_signed_32_range.
  - by apply to_signed_32_mod.
  - intros i Hi. by apply to_signed_32_upper_bits.
  - by intros -> -> -> ->.
Qed.

Lemma int32_widened_by_sign_extension_witness :
  exists v : Z,
    parse_some bson_codes 1 x10 (initial_reader [xff; xff; xff; xff; x00])
      = Returned (emit (Int64Value v tag_none)
                    (set_source [x00] (initial_reader [xff; xff; xff; xff; x00])))
    /\ v = -1.
Proof.
  destruct (int32_widened_by_sign_extension bson_codes 0
              (initial_reader [xff; xff; xff; xff; x00]) xff xff xff xff [x00]
              bson_codes_distinct eq_refl) as (v & Hrun & _ & _ & _ & Hone).
  exists v. split; [exact Hrun | by apply Hone].
Defined.

(** C6: a tag byte that is none of the ten case labels falls through the
    switch: [parse_some] returns with the source, the handler and the error
    code exactly as they were. *)
Theorem unknown_tag_skipped
    (fmt : bson_format) (fuel : nat) (type : byte) (st : reader_state) :
  type ∉ case_labels fmt ->
  parse_some fmt (S fuel) type st = Returned st.
Proof.
  intros Hnot. simpl. by rewrite switch_on_unlisted.
Qed.

Lemma unknown_tag_skipped_witness :
  (x07 ∉ case_labels bson_codes)
  /\ parse_some bson_codes 1 x07 (initial_reader [x01; x02; x03])
     = Returned (initial_reader [x01; x02; x03]).
Proof.
  assert (Hnot : x07 ∉ case_labels bson_codes).
  { apply (bool_decide_unpack _). vm_compute. exact I. }
  split; [exact Hnot | exact (unknown_tag_skipped bson_codes 0 x07 _ Hnot)].
Defined.

(** ** The string case *)

Arguments from_little_endian_int32 : simpl never.
Arguments int32_min : simpl never.

Lemma read_fixed_enough (n : nat) (st : reader_state)
    (k : list byte -> reader_state -> outcome) (buf rest : list byte) :
  source_ st = buf ++ rest -> length buf = n ->
  read_fixed n st k = k buf (set_source rest st).
Proof.
  intros Hsrc <-. unfold read_fixed, source_read. rewrite Hsrc.
  rewrite take_app_length, drop_app_length. by rewrite Nat.eqb_refl.
Qed.

Lemma read_fixed_short (n : nat) (st : reader_state)
    (k : list byte -> reader_state -> outcome) :
  (length (source_ st) < n)%nat ->
  read_fixed n st k = Thrown (bson_error 0) (set_source [] st).
Proof.
  intros Hlt. unfold read_fixed, source_read.
  rewrite take_ge, drop_ge by lia.
  by rewrite (proj2 (Nat.eqb_neq _ _)) by lia.
Qed.

Lemma set_source_twice (a b : list byte) (st : reader_state) :
  set_source a (set_source b st) = set_source a st.
Proof. reflexivity. Qed.

(** C4: a string element whose declared length [L] asks for more text bytes
    ([L - 1]) than the input still holds makes the string case throw
    [bson_error(0)]; the handler has received nothing for the element. *)
Theorem string_short_read_fails
    (fmt : bson_format) (fuel : nat) (st : reader_state)
    (b0 b1 b2 b3 : byte) (rest : list byte) :
  NoDup (case_labels fmt) ->
  source_ st = b0 :: b1 :: b2 :: b3 :: rest ->
  Z.of_nat (length rest) + 1 < from_little_endian_int32 [b0; b1; b2; b3] ->
  exists st',
    parse_some fmt (S fuel) (string_cd fmt) st = Thrown (bson_error 0) st'
    /\ handler_ st' = handler_ st
    /\ source_ st' = [].
Proof.
  intros Hnd Hsrc Hlen.
  set (L := from_little_endian_int32 [b0; b1; b2; b3]) in *.
  exists (set_source [] st).
  split; [|done].
  simpl. rewrite switch_on_string by done.
  rewrite (read_fixed_enough 4 st _ [b0; b1; b2; b3] rest) by done.
  fold L. cbn [source_ set_source source_read].
  assert ((L =? int32_min) = false) as -> by (apply Z.eqb_neq; unfold int32_min; lia).
  assert ((L - 1 <? 0) = false) as -> by (apply Z.ltb_ge; lia).
  rewrite length_take.
  assert ((Z.of_nat (Z.to_nat (L - 1) `min` length rest) =? L - 1) = false) as ->
    by (apply Z.eqb_neq; lia).
  cbn [negb]. rewrite drop_ge by lia. done.
Qed.

Lemma string_short_read_fails_witness :
  exists st',
    parse_some bson_codes 1 x02
      (initial_reader [x05; x00; x00; x00; x61; x62]) = Thrown (bson_error 0) st'
    /\ handler_ st' = []
    /\ source_ st' = [].
Proof.
  apply (string_short_read_fails bson_codes 0
           (initial_reader [x05; x00; x00; x00; x61; x62])
           x05 x00 x00 x00 [x61; x62] bson_codes_distinct eq_refl).
  vm_compute. reflexivity.
Defined.

(** C9: when the [L - 1] text bytes of a string element are there, the
    string case emits the [StringValue] and returns, whatever follows: one
    further byte is consumed if there is one, whatever its value, and none
    if the input ends with the text ([drop 1 tail]). *)
Theorem string_terminator_unchecked
    (fmt : bson_format) (fuel : nat) (st : reader_state)
    (b0 b1 b2 b3 : byte) (text tail : list byte) :
  NoDup (case_labels fmt) ->
  source_ st = b0 :: b1 :: b2 :: b3 :: text ++ tail ->
  from_little_endian_int32 [b0; b1; b2; b3] = Z.of_nat (length text) + 1 ->
  parse_some fmt (S fuel) (string_cd fmt) st
    = Returned (emit (StringValue text tag_none) (set_source (drop 1 tail) st)).
Proof.
  intros Hnd Hsrc Hlen.
  simpl. rewrite switch_on_string by done.
  rewrite (read_fixed_enough 4 st _ [b0; b1; b2; b3] (text ++ tail)) by done.
  rewrite Hlen. cbn [source_ set_source source_read].
  assert ((Z.of_nat (length text) + 1 =? int32_min) = false) as ->
    by (apply Z.eqb_neq; unfold int32_min; lia).
  assert ((Z.of_nat (length text) + 1 - 1 <? 0) = false) as ->
    by (apply Z.ltb_ge; lia).
  replace (Z.to_nat (Z.of_nat (length text) + 1 - 1)) with (length text) by lia.
  rewrite take_app_length, drop_app_length.
  assert ((Z.of_nat (length text) =? Z.of_nat (length text) + 1 - 1) = true) as ->
    by (apply Z.eqb_eq; lia).
  cbn [negb]. by destruct tail.
Qed.

Lemma string_terminator_unchecked_witness :
  parse_some bson_codes 1 x02
    (initial_reader [x03; x00; x00; x00; x61; x62; x07; x0a])
  = Returned (emit (StringValue [x61; x62] tag_none)
       (set_source [x0a] (initial_reader [x03; x00; x00; x00; x61; x62; x07; x0a])))
  /\ parse_some bson_codes 1 x02
       (initial_reader [x03; x00; x00; x00; x61; x62])
     = Returned (emit (StringValue [x61; x62] tag_none)
          (set_source [] (initial_reader [x03; x00; x00; x00; x61; x62]))).
Proof.
  split.
  - apply (string_terminator_unchecked bson_codes 0
             (initial_reader [x03; x00; x00; x00; x61; x62; x07; x0a])
             x03 x00 x00 x00 [x61; x62] [x07; x0a] bson_codes_distinct eq_refl).
    vm_compute. reflexivity.
  - apply (string_terminator_unchecked bson_codes 0
             (initial_reader [x03; x00; x00; x00; x61; x62])
             x03 x00 x00 x00 [x61; x62] [] bson_codes_distinct eq_refl).
    vm_compute. reflexivity.
Defined.

(** ** The array case *)

(** C1: on the array element [04 .. 10 "0" 00 01 00 00 00 00] (the array
    [[1]]) the array case hands the handler a [Name] event for the element:
    it enters [parse_e_list] with [bson_structure_type::document]. *)
Theorem array_case_emits_element_names :
  parse_some bson_codes 3 x04
    (initial_reader [x0c; x00; x00; x00; x10; x30; x00; x01; x00; x00; x00; x00])
  = Returned {| source_ := [];
                handler_ := [BeginArray; Name [x30]; Int64Value 1 tag_none; EndArray];
                column_ := 1;
                nesting_depth_ := 0;
                ec := 0 |}.
Proof. vm_compute. reflexivity. Qed.

(** ** Nesting of the emitted events *)

Lemma nest_run_app (open : list bool) (a b : list event) :
  nest_run open (a ++ b) =
  match nest_run open a with
  | Some o => nest_run o b
  | None => None
  end.
Proof.
  revert open. induction a as [|e a IH]; intros open; [done|].
  simpl. destruct (nest_step open e); [apply IH | done].
Qed.

Lemma balanced_nil : balanced [].
Proof. by intros open. Qed.

Lemma balanced_app (a b : list event) :
  balanced a -> balanced b -> balanced (a ++ b).
Proof.
  intros Ha Hb open. by rewrite nest_run_app, Ha, Hb.
Qed.

Lemma balanced_object (mid : list event) :
  balanced mid -> balanced ([BeginObject] ++ mid ++ [EndObject]).
Proof.
  intros Hm open. simpl. by rewrite nest_run_app, Hm.
Qed.

Lemma balanced_array (mid : list event) :
  balanced mid -> balanced ([BeginArray] ++ mid ++ [EndArray]).
Proof.
  intros Hm open. simpl. by rewrite nest_run_app, Hm.
Qed.

Lemma preserves_set_source (src : list byte) (st : reader_state) :
  preserves st (set_source src st).
Proof.
  split; [|done]. exists []. split; [by rewrite app_nil_r | apply balanced_nil].
Qed.

Lemma preserves_refl (st : reader_state) : preserves st st.
Proof.
  split; [|done]. exists []. split; [by rewrite app_nil_r | apply balanced_nil].
Qed.

Lemma preserves_trans (a b c : reader_state) :
  preserves a b -> preserves b c -> preserves a c.
Proof.
  intros [(e1 & H1 & B1) D1] [(e2 & H2 & B2) D2]. split; [|congruence].
  exists (e1 ++ e2). split; [|by apply balanced_app].
  by rewrite H2, H1, app_assoc.
Qed.

Lemma preserves_emit (e : event) (st : reader_state) :
  balanced [e] -> preserves st (emit e st).
Proof. intros He. split; [|done]. by exists [e]. Qed.

Lemma read_fixed_returned (n : nat) (st st' : reader_state)
    (k : list byte -> reader_state -> outcome) :
  read_fixed n st k = Returned st' ->
  exists buf rest, source_ st = buf ++ rest /\ length buf = n
                   /\ k buf (set_source rest st) = Returned st'.
Proof.
  unfold read_fixed, source_read. intros Hk.
  destruct (Nat.eqb (length (take n (source_ st))) n) eqn:E; [|done].
  apply Nat.eqb_eq in E. exists (take n (source_ st)), (drop n (source_ st)).
  by rewrite take_drop.
Qed.

(** One container: the length, the begin event, the element list run by
    [run], the end event. *)
Lemma container_returned (run : reader_state -> outcome) (b e : event)
    (st st' : reader_state) :
  in_size_t (nesting_depth_ st) ->
  (forall s s', in_size_t (nesting_depth_ s) -> run s = Returned s' ->
                preserves s s') ->
  read_fixed 4 st (fun _ st0 =>
    match run (incr_depth (emit b st0)) with
    | Returned st2 => Returned (decr_depth (emit e st2))
    | o => o
    end) = Returned st' ->
  exists mid,
    handler_ st' = handler_ st ++ [b] ++ mid ++ [e]
    /\ balanced mid
    /\ nesting_depth_ st' = nesting_depth_ st.
Proof.
  intros Hd Hrun Hret.
  apply read_fixed_returned in Hret as (buf & rest & _ & _ & Hk).
  destruct (run (incr_depth (emit b (set_source rest st)))) as [st2| | |] eqn:E;
    try done.
  injection Hk as <-.
  apply Hrun in E as [(mid & Hh & Hb) Hdep].
  - exists mid. split; [|split; [done|]].
    + simpl. rewrite Hh. simpl. by rewrite <- !app_assoc.
    + simpl. rewrite Hdep. simpl. unfold in_size_t, size_t_modulus in *.
      rewrite Zminus_mod_idemp_l. replace (nesting_depth_ st + 1 - 1)
        with (nesting_depth_ st) by lia. apply Z.mod_small. lia.
  - simpl. unfold in_size_t. apply Z.mod_pos_bound. by unfold size_t_modulus.
Qed.

Lemma container_preserves (b e : event) (mid : list event) (st st' : reader_state) :
  balanced ([b] ++ mid ++ [e]) ->
  handler_ st' = handler_ st ++ [b] ++ mid ++ [e] ->
  nesting_depth_ st' = nesting_depth_ st ->
  preserves st st'.
Proof. intros Hb Hh Hd. split; [|done]. by eexists. Qed.

Lemma returns_preserve (fmt : bson_format) (fuel : nat) :
  (forall st st', in_size_t (nesting_depth_ st) ->
     read fmt fuel st = Returned st' -> preserves st st')
  /\ (forall type st st', in_size_t (nesting_depth_ st) ->
        parse_e_list fmt fuel type st = Returned st' -> preserves st st')
  /\ (forall t st st', in_size_t (nesting_depth_ st) ->
        parse_some fmt fuel t st = Returned st' -> preserves st st').
Proof.
  induction fuel as [|fuel (IHr & IHl & IHs)]; [by repeat split|].
  split; [|split].
  - intros st st' Hd Hret. simpl in Hret.
    apply (container_returned _ _ _ _ _ Hd (IHl document)) in Hret
      as (mid & Hh & Hb & Hdep).
    eapply container_preserves; [by apply balanced_object | done..].
  - intros type st st' Hd Hret. simpl in Hret.
    destruct (source_ st) as [|t src] eqn:Hsrc; simpl in Hret.
    { injection Hret as <-. apply preserves_set_source. }
    destruct (Byte.eqb t x00).
    { injection Hret as <-. apply preserves_set_source. }
    destruct (read_cstring src) as [s src'].
    match type of Hret with
    | match parse_some _ _ _ ?s2 with _ => _ end = _ =>
        destruct (parse_some fmt fuel t s2) as [st3| | |] eqn:E; try done;
        assert (Hp2 : preserves st s2)
    end.
    { destruct type.
      - eapply preserves_trans; [apply (preserves_set_source src')|].
        by apply preserves_emit.
      - apply preserves_set_source. }
    assert (Hp3 : preserves st st3).
    { eapply preserves_trans; [exact Hp2|]. apply IHs in E; [done|].
      destruct Hp2 as [_ ->]. done. }
    eapply preserves_trans; [exact Hp3|]. apply IHl in Hret; [done|].
    destruct Hp3 as [_ ->]. done.
  - intros t st st' Hd Hret. simpl in Hret.
    destruct (switch_on fmt t) as [[]|].
    + apply read_fixed_returned in Hret as (buf & rest & _ & _ & Hk).
      injection Hk as <-.
      eapply preserves_trans; [apply (preserves_set_source rest)|].
      by apply preserves_emit.
    + apply read_fixed_returned in Hret as (buf & rest & _ & _ & Hk).
      cbn [source_ set_source source_read] in Hk.
      repeat case_match; try done. simplify_eq. rewrite set_source_twice.
      match goal with
      | |- preserves _ (emit _ (set_source ?l _)) =>
          eapply preserves_trans; [apply (preserves_set_source l)|]
      end.
      by apply preserves_emit.
    + destruct (read fmt fuel st) as [st1| | |] eqn:E; try done.
      apply IHr in E; [|done]. by destruct (negb _); injection Hret as <-.
    + apply (container_returned _ _ _ _ _ Hd (IHl document)) in Hret
        as (mid & Hh & Hb & Hdep).
      eapply container_preserves; [by apply balanced_array | done..].
    + injection Hret as <-. by apply preserves_emit.
    + destruct (source_ st) as [|val src]; simpl in Hret; [done|].
      injection Hret as <-.
      eapply preserves_trans; [apply (preserves_set_source src)|].
      by apply preserves_emit.
    + apply read_fixed_returned in Hret as (buf & rest & _ & _ & Hk).
      injection Hk as <-.
      eapply preserves_trans; [apply (preserves_set_source rest)|].
      by apply preserves_emit.
    + apply read_fixed_returned in Hret as (buf & rest & _ & _ & Hk).
      injection Hk as <-.
      eapply preserves_trans; [apply (preserves_set_source rest)|].
      by apply preserves_emit.
    + apply read_fixed_returned in Hret as (buf & rest & _ & _ & Hk).
      injection Hk as <-.
      eapply preserves_trans; [apply (preserves_set_source rest)|].
      by apply preserves_emit.
    + apply read_fixed_returned in Hret as (buf & rest & _ & _ & Hk).
      cbn [source_ set_source source_read] in Hk.
      repeat case_match; try done. simplify_eq. rewrite set_source_twice.
      match goal with
      | |- preserves _ (emit _ (set_source ?l _)) =>
          eapply preserves_trans; [apply (preserves_set_source l)|]
      end.
      by apply preserves_emit.
    + injection Hret as <-. apply preserves_refl.
Qed.

(** C10: a [read] that returns has emitted one [BeginObject], a balanced
    run of events for the element list, and one [EndObject]; the array case
    of [parse_some] likewise with [BeginArray] and [EndArray].  What each
    emitted is therefore balanced, and [nesting_depth_] is back at its value
    on entry. *)
Theorem containers_balanced_and_depth_restored
    (fmt : bson_format) (fuel : nat) (st st' : reader_state) :
  NoDup (case_labels fmt) ->
  in_size_t (nesting_depth_ st) ->
  (read fmt fuel st = Returned st' ->
     exists mid,
       handler_ st' = handler_ st ++ [BeginObject] ++ mid ++ [EndObject]
       /\ balanced mid
       /\ balanced ([BeginObject] ++ mid ++ [EndObject])
       /\ nesting_depth_ st' = nesting_depth_ st)
  /\ (parse_some fmt fuel (array_cd fmt) st = Returned st' ->
        exists mid,
          handler_ st' = handler_ st ++ [BeginArray] ++ mid ++ [EndArray]
          /\ balanced mid
          /\ balanced ([BeginArray] ++ mid ++ [EndArray])
          /\ nesting_depth_ st' = nesting_depth_ st).
Proof.
  intros Hnd Hd. destruct fuel as [|fuel]; [done|].
  destruct (returns_preserve fmt fuel) as (_ & IHl & _).
  split; intros Hret; simpl in Hret.
  - apply (container_returned _ _ _ _ _ Hd (IHl document)) in Hret
      as (mid & Hh & Hb & Hdep).
    exists mid. repeat split; try done. by apply balanced_object.
  - rewrite switch_on_array in Hret by done.
    apply (container_returned _ _ _ _ _ Hd (IHl document)) in Hret
      as (mid & Hh & Hb & Hdep).
    exists mid. repeat split; try done. by apply balanced_array.
Qed.

Lemma containers_balanced_and_depth_restored_witness :
  (exists mid,
     [BeginObject; Name [x61]; NullValue tag_none; EndObject]
       = [] ++ [BeginObject] ++ mid ++ [EndObject]
     /\ balanced mid)
  /\ (exists mid,
        [BeginArray; Name [x30]; Int64Value 1 tag_none; EndArray]
          = [] ++ [BeginArray] ++ mid ++ [EndArray]
        /\ balanced mid).
Proof.
  assert (Hd : forall v, in_size_t (nesting_depth_ (initial_reader v))).
  { intros v. unfold in_size_t, size_t_modulus. simpl. lia. }
  split.
  - destruct (containers_balanced_and_depth_restored bson_codes 4
                (initial_reader [x08; x00; x00; x00; x0a; x61; x00; x00])
                {| source_ := [];
                   handler_ := [BeginObject; Name [x61]; NullValue tag_none; EndObject];
                   column_ := 1; nesting_depth_ := 0; ec := 0 |}
                bson_codes_distinct (Hd _)) as [Hread _].
    destruct (Hread eq_refl) as (mid & Hh & Hb & _).
    exists mid. split; [exact Hh | exact Hb].
  - destruct (containers_balanced_and_depth_restored bson_codes 3
                (initial_reader [x0c; x00; x00; x00; x10; x30; x00;
                                 x01; x00; x00; x00; x00])
                {| source_ := [];
                   handler_ := [BeginArray; Name [x30]; Int64Value 1 tag_none; EndArray];
                   column_ := 1; nesting_depth_ := 0; ec := 0 |}
                bson_codes_distinct (Hd _)) as [_ Harr].
    destruct (Harr eq_refl) as (mid & Hh & Hb & _).
    exists mid. split; [exact Hh | exact Hb].
Defined.

(** ** The error code *)

Lemma read_fixed_ec (n : nat) (st : reader_state)
    (k : list byte -> reader_state -> outcome) :
  (forall buf st0, ec st0 = ec st -> ec_untouched st0 (k buf st0)) ->
  ec_untouched st (read_fixed n st k).
Proof.
  intros Hk. unfold read_fixed, source_read. case_match; [done|].
  specialize (Hk (take n (source_ st)) (set_source (drop n (source_ st)) st) eq_refl).
  unfold ec_untouched in *. by case_match.
Qed.

Lemma ec_untouched_bind (st st1 : reader_state) (o : outcome)
    (k : reader_state -> outcome) :
  ec st1 = ec st ->
  ec_untouched st1 o ->
  (forall st2, ec st2 = ec st -> ec_untouched st2 (k st2)) ->
  ec_untouched st
    match o with
    | Returned st2 => k st2
    | Thrown e st2 => Thrown e st2
    | Undefined => Undefined
    | OutOfFuel => OutOfFuel
    end.
Proof.
  intros H1 Ho Hk. destruct o as [st2| e st2| |]; simpl in *; try done.
  - specialize (Hk st2 ltac:(congruence)).
    unfold ec_untouched in *. case_match; congruence.
  - congruence.
Qed.

Lemma reader_never_assigns_ec (fmt : bson_format) (fuel : nat) :
  (forall st, ec_untouched st (read fmt fuel st))
  /\ (forall type st, ec_untouched st (parse_e_list fmt fuel type st))
  /\ (forall t st, ec_untouched st (parse_some fmt fuel t st)).
Proof.
  induction fuel as [|fuel (IHr & IHl & IHs)]; [by repeat split|].
  assert (Hcontainer : forall b e st,
    ec_untouched st (read_fixed 4 st (fun _ st0 =>
      match parse_e_list fmt fuel document (incr_depth (emit b st0)) with
      | Returned st2 => Returned (decr_depth (emit e st2))
      | o => o
      end))).
  { intros b e st. apply read_fixed_ec. intros _ st0 H0.
    apply (ec_untouched_bind st0 (incr_depth (emit b st0)) _
             (fun st2 => Returned (decr_depth (emit e st2))));
      [done | apply IHl | by intros st2 H2]. }
  split; [|split].
  - intros st. simpl. apply Hcontainer.
  - intros type st. simpl.
    destruct (source_ st) as [|t src]; simpl; [done|].
    destruct (Byte.eqb t x00); [done|].
    destruct (read_cstring src) as [s src'].
    match goal with
    | |- ec_untouched _ (match parse_some _ _ _ ?s2 with _ => _ end) =>
        apply (ec_untouched_bind st s2 _ (fun st3 => parse_e_list fmt fuel type st3));
          [by destruct type | apply IHs | intros st3 _; apply IHl]
    end.
  - intros t st. simpl.
    assert (Hfield : forall n (k : list byte -> reader_state -> reader_state),
      (forall buf st0, ec (k buf st0) = ec st0) ->
      ec_untouched st (read_fixed n st (fun buf st0 => Returned (k buf st0)))).
    { intros n k Hk. apply read_fixed_ec. intros buf st0 H0. simpl.
      by rewrite Hk. }
    destruct (switch_on fmt t) as [[]|].
    + by apply (Hfield 8%nat (fun buf st0 => emit _ st0)).
    + apply read_fixed_ec. intros buf st0 H0.
      cbn [source_ set_source source_read]. by repeat case_match.
    + specialize (IHr st). destruct (read fmt fuel st); try done.
      by destruct (negb _).
    + apply Hcontainer.
    + done.
    + by destruct (source_ st).
    + by apply (Hfield 4%nat (fun buf st0 => emit _ st0)).
    + by apply (Hfield 8%nat (fun buf st0 => emit _ st0)).
    + by apply (Hfield 8%nat (fun buf st0 => emit _ st0)).
    + apply read_fixed_ec. intros buf st0 H0.
      cbn [source_ set_source source_read]. by repeat case_match.
    + done.
Qed.

(** ** Consumption of the source and the recursion budget *)

Lemma read_cstring_shrinks (src : list byte) :
  (length (read_cstring src).2 <= length src)%nat.
Proof.
  induction src as [|c rest IH]; simpl; [done|].
  destruct (Byte.eqb c x00); simpl; [lia|].
  destruct (read_cstring rest); simpl in *. lia.
Qed.

Lemma container_shrinks (run : reader_state -> outcome) (b e : event)
    (st st' : reader_state) :
  (forall s s', run s = Returned s' -> shrinks s s') ->
  read_fixed 4 st (fun _ st0 =>
    match run (incr_depth (emit b st0)) with
    | Returned st2 => Returned (decr_depth (emit e st2))
    | o => o
    end) = Returned st' ->
  shrinks st st'.
Proof.
  intros Hrun Hret.
  apply read_fixed_returned in Hret as (buf & rest & Hsrc & _ & Hk).
  destruct (run (incr_depth (emit b (set_source rest st)))) as [st2| | |] eqn:E;
    try done.
  injection Hk as <-. apply Hrun in E. unfold shrinks in *. simpl in *.
  rewrite Hsrc, length_app. lia.
Qed.

Lemma field_shrinks (n : nat) (st st' : reader_state)
    (k : list byte -> reader_state -> reader_state) :
  (forall buf st0, source_ (k buf st0) = source_ st0) ->
  read_fixed n st (fun buf st0 => Returned (k buf st0)) = Returned st' ->
  shrinks st st'.
Proof.
  intros Hk Hret.
  apply read_fixed_returned in Hret as (buf & rest & Hsrc & _ & Hret).
  injection Hret as <-. unfold shrinks. rewrite Hk, Hsrc, length_app.
  simpl. lia.
Qed.

Lemma returns_shrink (fmt : bson_format) (fuel : nat) :
  (forall st st', read fmt fuel st = Returned st' -> shrinks st st')
  /\ (forall type st st',
        parse_e_list fmt fuel type st = Returned st' -> shrinks st st')
  /\ (forall t st st', parse_some fmt fuel t st = Returned st' -> shrinks st st').
Proof.
  induction fuel as [|fuel (IHr & IHl & IHs)]; [by repeat split|].
  split; [|split].
  - intros st st' Hret. simpl in Hret.
    by apply (container_shrinks _ _ _ _ _ (IHl document)) in Hret.
  - intros type st st' Hret. simpl in Hret. unfold shrinks.
    destruct (source_ st) as [|t src] eqn:Hsrc; simpl in Hret.
    { injection Hret as <-. simpl. lia. }
    destruct (Byte.eqb t x00).
    { injection Hret as <-. simpl. lia. }
    pose proof (read_cstring_shrinks src) as Hc.
    destruct (read_cstring src) as [s src'].
    match type of Hret with
    | match parse_some _ _ _ ?s2 with _ => _ end = _ =>
        destruct (parse_some fmt fuel t s2) as [st3| | |] eqn:E; try done;
        assert (H2 : source_ s2 = src') by (by destruct type)
    end.
    apply IHs in E. apply IHl in Hret. unfold shrinks in *.
    rewrite H2 in E. simpl in *. lia.
  - intros t st st' Hret. simpl in Hret.
    destruct (switch_on fmt t) as [[]|].
    + by apply (field_shrinks 8 _ _ (fun buf st0 => emit _ st0)) in Hret.
    + apply read_fixed_returned in Hret as (buf & rest & Hsrc & _ & Hk).
      cbn [source_ set_source source_read] in Hk.
      repeat case_match; try done. simplify_eq. unfold shrinks. simpl.
      match goal with
      | H : source_get ?d = (_, ?l) |- _ =>
          assert (length l <= length d)%nat
            by (destruct d; simpl in H; simplify_eq; simpl; lia)
      end.
      rewrite Hsrc, length_app. rewrite length_drop in *. lia.
    + destruct (read fmt fuel st) as [st1| | |] eqn:E; try done.
      apply IHr in E. by destruct (negb _); injection Hret as <-.
    + by apply (container_shrinks _ _ _ _ _ (IHl document)) in Hret.
    + injection Hret as <-. unfold shrinks. simpl. lia.
    + unfold shrinks. destruct (source_ st) as [|val src]; simpl in Hret; [done|].
      injection Hret as <-. simpl. lia.
    + by apply (field_shrinks 4 _ _ (fun buf st0 => emit _ st0)) in Hret.
    + by apply (field_shrinks 8 _ _ (fun buf st0 => emit _ st0)) in Hret.
    + by apply (field_shrinks 8 _ _ (fun buf st0 => emit _ st0)) in Hret.
    + apply read_fixed_returned in Hret as (buf & rest & Hsrc & _ & Hk).
      cbn [source_ set_source source_read] in Hk.
      repeat case_match; try done. simplify_eq. unfold shrinks. simpl.
      rewrite Hsrc, length_app, length_drop. lia.
    + injection Hret as <-. unfold shrinks. lia.
Qed.

Lemma container_fuel (run : reader_state -> outcome) (b e : event)
    (st : reader_state) :
  (forall rest, (length rest + 4 <= length (source_ st))%nat ->
     run (incr_depth (emit b (set_source rest st))) <> OutOfFuel) ->
  read_fixed 4 st (fun _ st0 =>
    match run (incr_depth (emit b st0)) with
    | Returned st2 => Returned (decr_depth (emit e st2))
    | o => o
    end) <> OutOfFuel.
Proof.
  intros Hrun. unfold read_fixed, source_read.
  destruct (Nat.eqb (length (take 4 (source_ st))) 4) eqn:E; [|done].
  apply Nat.eqb_eq in E. rewrite length_take in E. simpl.
  specialize (Hrun (drop 4 (source_ st))).
  rewrite length_drop in Hrun. specialize (Hrun ltac:(lia)).
  by destruct (run _).
Qed.

Lemma field_fuel (n : nat) (st : reader_state)
    (k : list byte -> reader_state -> outcome) :
  (forall buf st0, k buf st0 <> OutOfFuel) ->
  read_fixed n st k <> OutOfFuel.
Proof.
  intros Hk. unfold read_fixed, source_read. by case_match.
Qed.

(** On [n] bytes of input the recursion is never deeper than [3 * n + 3]. *)
Lemma fuel_suffices (fmt : bson_format) (fuel : nat) :
  (forall st, (3 * length (source_ st) + 2 <= fuel)%nat ->
     read fmt fuel st <> OutOfFuel)
  /\ (forall type st, (3 * length (source_ st) + 1 <= fuel)%nat ->
        parse_e_list fmt fuel type st <> OutOfFuel)
  /\ (forall t st, (3 * length (source_ st) + 3 <= fuel)%nat ->
        parse_some fmt fuel t st <> OutOfFuel).
Proof.
  induction fuel as [|fuel (IHr & IHl & IHs)]; [repeat split; intros; lia|].
  destruct (returns_shrink fmt fuel) as (_ & _ & Hshrink).
  split; [|split].
  - intros st Hf. simpl. apply container_fuel. intros rest Hrest.
    apply IHl. simpl. lia.
  - intros type st Hf. simpl.
    destruct (source_ st) as [|t src] eqn:Hsrc; simpl; [done|].
    destruct (Byte.eqb t x00); [done|].
    pose proof (read_cstring_shrinks src) as Hc.
    destruct (read_cstring src) as [s src']. simpl in *.
    match goal with
    | |- match parse_some _ _ _ ?s2 with _ => _ end <> _ =>
        assert (H2 : source_ s2 = src') by (by destruct type);
        pose proof (IHs t s2) as Hs; pose proof (Hshrink t s2) as Hsh;
        destruct (parse_some fmt fuel t s2) as [st3| | |]; try done
    end.
    + specialize (Hsh st3 eq_refl). unfold shrinks in Hsh. rewrite H2 in Hsh.
      apply IHl. lia.
    + apply Hs. rewrite H2. lia.
  - intros t st Hf. simpl.
    destruct (switch_on fmt t) as [[]|]; try done;
      try (by apply field_fuel).
    + apply field_fuel. intros buf st0.
      cbn [source_ set_source source_read]. by repeat case_match.
    + specialize (IHr st ltac:(lia)). destruct (read fmt fuel st); try done.
      by destruct (negb _).
    + apply container_fuel. intros rest Hrest. apply IHl. simpl. lia.
    + by destruct (source_ st).
    + apply field_fuel. intros buf st0.
      cbn [source_ set_source source_read]. by repeat case_match.
Qed.

Lemma decode_bson_total (fmt : bson_format) (v : list byte) :
  decode_bson fmt v <> DecodeOutOfFuel.
Proof.
  unfold decode_bson.
  destruct (fuel_suffices fmt (enough_fuel (length v))) as (Hr & _ & _).
  specialize (Hr (initial_reader v)). simpl in Hr. unfold enough_fuel in *.
  specialize (Hr ltac:(lia)).
  destruct (read _ _ _); try done. by case_match.
Qed.

(** ** [read(ec)] on truncated input *)

(** C3, as the code has it: [read] never assigns [ec].  Whether it returns
    or throws, [ec] is what the caller passed; an input too short for the
    4-byte length makes it throw [bson_error(0)]; so [decode_bson] never
    takes its [if (ec)] branch, and gets out with the exception when the
    header is cut short. *)
Theorem read_throws_and_leaves_ec
    (fmt : bson_format) (fuel : nat) (st : reader_state) (v : list byte) :
  (length (source_ st) < 4)%nat ->
  (length v < 4)%nat ->
  read fmt (S fuel) st = Thrown (bson_error 0) (set_source [] st)
  /\ ec (set_source [] st) = ec st
  /\ (forall fuel' st0, ec_untouched st0 (read fmt fuel' st0))
  /\ decode_bson fmt v = Raised (bson_error 0)
  /\ (forall w code line column, decode_bson fmt w <> ParseError code line column).
Proof.
  intros Hst Hv. split; [|split; [|split; [|split]]].
  - simpl. by apply read_fixed_short.
  - done.
  - intros fuel' st0. apply reader_never_assigns_ec.
  - unfold decode_bson, enough_fuel.
    replace (3 * length v + 3)%nat with (S (3 * length v + 2)) by lia.
    simpl. by rewrite read_fixed_short.
  - intros w code line column. unfold decode_bson.
    destruct (reader_never_assigns_ec fmt (enough_fuel (length w))) as (Hr & _ & _).
    specialize (Hr (initial_reader w)).
    destruct (read _ _ _) as [st'| | |]; try done.
    simpl in Hr. rewrite Hr. done.
Qed.

Lemma read_throws_and_leaves_ec_witness :
  read bson_codes 1 (initial_reader [x05; x00; x00])
    = Thrown (bson_error 0) (set_source [] (initial_reader [x05; x00; x00]))
  /\ decode_bson bson_codes [x05; x00; x00] = Raised (bson_error 0).
Proof.
  destruct (read_throws_and_leaves_ec bson_codes 0
              (initial_reader [x05; x00; x00]) [x05; x00; x00])
    as (Hread & _ & _ & Hdec & _).
  - simpl. lia.
  - simpl. lia.
  - split; [exact Hread | exact Hdec].
Defined.

(** C3 as stated fails on the three bytes [05 00 00]: [read] does not
    return with [ec] set, it throws with [ec] still clear, and the exception
    passes through [decode_bson]. *)
Lemma read_truncated_raises :
  (forall st', read bson_codes (enough_fuel 3) (initial_reader [x05; x00; x00])
               <> Returned st')
  /\ read bson_codes (enough_fuel 3) (initial_reader [x05; x00; x00])
     = Thrown (bson_error 0)
         {| source_ := []; handler_ := []; column_ := 1;
            nesting_depth_ := 0; ec := 0 |}
  /\ decode_bson bson_codes [x05; x00; x00] = Raised (bson_error 0).
Proof. repeat split; by vm_compute. Qed.

(** For comparison with the array case: the same element list with
    [bson_structure_type::array] passed to [parse_e_list]; no [Name]
    reaches the handler. *)
Lemma array_elements_without_names :
  parse_e_list bson_codes 3 array
    (initial_reader [x10; x30; x00; x01; x00; x00; x00; x00])
  = Returned {| source_ := []; handler_ := [Int64Value 1 tag_none];
                column_ := 1; nesting_depth_ := 0; ec := 0 |}.
Proof. by vm_compute. Qed.

(** ** [conversion_traits<std::array<T,N>>::decode] *)

Section FixedArrayProperties.

Context {T : Type} (default_init : T).

(** The loop fills the slots from [i] on with the elements still to come and
    stops assigning at slot [N]. *)
Lemma array_loop_fills (N : nat) (items pre : list T) :
  (length pre <= N)%nat ->
  array_loop T N items (length pre)
    (pre ++ replicate (N - length pre) default_init)
  = pre ++ take (N - length pre) items
        ++ replicate (N - length pre - length items) default_init.
Proof.
  revert pre. induction items as [|item rest IH]; intros pre Hle; simpl.
  - by rewrite take_nil, Nat.sub_0_r.
  - destruct (length pre <? N)%nat eqn:E.
    + apply Nat.ltb_lt in E.
      rewrite insert_app_r_alt, Nat.sub_diag by lia.
      destruct (N - length pre)%nat as [|k] eqn:Hk; [lia|]. simpl.
      specialize (IH (pre ++ [item])). rewrite length_app in IH. simpl in IH.
      replace (length pre + 1)%nat with (S (length pre)) in IH by lia.
      replace (N - S (length pre))%nat with k in IH by lia.
      rewrite <- !app_assoc in IH. simpl in IH. apply IH. lia.
    + apply Nat.ltb_ge in E. rewrite (IH pre Hle).
      by replace (N - length pre)%nat with 0%nat by lia.
Qed.

Lemma decode_array_stream (N : nat) (xs : list T) :
  decode_array T default_init N (stream_of xs)
  = Value (take N xs ++ replicate (N - length xs) default_init).
Proof.
  unfold decode_array. simpl.
  pose proof (array_loop_fills N xs [] ltac:(simpl; lia)) as H.
  simpl in H. rewrite Nat.sub_0_r in H. by rewrite H.
Qed.

(** C5: a stream of [length xs] elements decoded into a [std::array] of
    capacity [N] by the raising overload.  More elements than slots: the
    result is the first [N] elements.  Fewer: the elements, then
    default-initialized slots.  In both cases [decode] returns; nothing is
    raised. *)
Theorem fixed_array_truncates_and_fills (N : nat) (xs : list T) :
  ((N < length xs)%nat ->
     decode_array T default_init N (stream_of xs) = Value (take N xs))
  /\ ((length xs < N)%nat ->
        decode_array T default_init N (stream_of xs)
          = Value (xs ++ replicate (N - length xs) default_init)).
Proof.
  rewrite decode_array_stream. split; intros Hlt.
  - replace (N - length xs)%nat with 0%nat by lia. simpl.
    by rewrite app_nil_r.
  - by rewrite take_ge by lia.
Qed.

End FixedArrayProperties.

Lemma fixed_array_truncates_and_fills_witness :
  decode_array Z 0 2 (stream_of [7; 8; 9]) = Value [7; 8]
  /\ decode_array Z 0 3 (stream_of [7]) = Value [7; 0; 0].
Proof.
  split.
  - apply (proj1 (fixed_array_truncates_and_fills 0 2%nat [7; 8; 9])).
    simpl. lia.
  - apply (proj2 (fixed_array_truncates_and_fills 0 3%nat [7])).
    simpl. lia.
Defined.

(** ** [conversion_traits<map-like>::decode] *)

Section MapLikeProperties.

Context {K : Type} `{Countable K} {V : Type}.

Lemma emplace_present (k k' : K) (v v' : V) (m : gmap K V) :
  m !! k = Some v -> emplace k' v' m !! k = Some v.
Proof.
  intros Hm. unfold emplace. destruct (m !! k') eqn:E; [done|].
  destruct (decide (k' = k)) as [->|Hne]; [congruence|].
  by rewrite lookup_insert_ne.
Qed.

Lemma emplace_absent (k : K) (v : V) (m : gmap K V) :
  m !! k = None -> emplace k v m !! k = Some v.
Proof.
  intros Hm. unfold emplace. rewrite Hm. apply lookup_insert_eq.
Qed.

Lemma emplace_other (k k' : K) (v' : V) (m : gmap K V) :
  k' <> k -> emplace k' v' m !! k = m !! k.
Proof.
  intros Hne. unfold emplace. destruct (m !! k'); [done|].
  by rewrite lookup_insert_ne.
Qed.

Lemma map_loop_present (items : list (K * V)) (k : K) (v : V) (m : gmap K V) :
  m !! k = Some v -> map_loop items m !! k = Some v.
Proof.
  revert m. induction items as [|kv rest IH]; intros m Hm; simpl; [done|].
  apply IH. by apply emplace_present.
Qed.

Lemma map_loop_other (items : list (K * V)) (k : K) (m : gmap K V) :
  k ∉ items.*1 -> map_loop items m !! k = m !! k.
Proof.
  revert m. induction items as [|[k' v'] rest IH]; intros m Hk; simpl; [done|].
  rewrite fmap_cons, not_elem_of_cons in Hk. destruct Hk as [Hne Hrest].
  rewrite IH by done. apply emplace_other. simpl in Hne. congruence.
Qed.

Lemma map_loop_app (a b : list (K * V)) (m : gmap K V) :
  map_loop (a ++ b) m = map_loop b (map_loop a m).
Proof.
  revert m. induction a as [|kv a IH]; intros m; simpl; [done|]. apply IH.
Qed.

(** C2, as the code has it: when a key occurs twice in the stream, the map
    the raising overload returns binds it to the value of the earlier entry;
    [emplace] leaves an existing element alone. *)
Theorem map_decode_first_entry_wins
    (k : K) (v1 v2 : V) (pre mid post : list (K * V)) :
  k ∉ pre.*1 ->
  let items := pre ++ (k, v1) :: mid ++ (k, v2) :: post in
  exists m, decode_map (stream_of items) = Value m /\ m !! k = Some v1.
Proof.
  intros Hpre items.
  exists (map_loop items ∅). split; [done|].
  unfold items. rewrite map_loop_app. simpl. apply map_loop_present.
  apply emplace_absent. by rewrite map_loop_other.
Qed.

End MapLikeProperties.

Lemma map_decode_first_entry_wins_witness :
  exists m : gmap string Z,
    decode_map (stream_of [("a"%string, 1); ("a"%string, 2)]) = Value m
    /\ m !! "a"%string = Some 1.
Proof.
  apply (map_decode_first_entry_wins "a"%string 1 2 [] [] []).
  simpl. apply not_elem_of_nil.
Defined.

(** C2 as stated fails on the stream of [{"a":1,"a":2}]: the decoded map
    binds ["a"] to 1, the value of the earlier entry, not to 2. *)
Lemma map_decode_not_last_write_wins :
  exists m : gmap string Z,
    decode_map (stream_of [("a"%string, 1); ("a"%string, 2)]) = Value m
    /\ m !! "a"%string = Some 1
    /\ m !! "a"%string <> Some 2.
Proof.
  exists (map_loop [("a"%string, 1); ("a"%string, 2)] ∅).
  repeat split; done.
Qed.

(** ** [do_end_object] and [do_end_array] *)

Section DeserializerProperties.

Variable sort_members : list (string * json) -> list (string * json).
Variable moved_from : string -> string.

Lemma after_pop_handed_up (root val : json) (rest : list stack_item) :
  handed_up (after_pop moved_from val root rest) root val rest.
Proof.
  split; [|split].
  - by intros ->.
  - intros parent rest' members -> Hobj Hmem. simpl.
    unfold push_back_value. rewrite Hobj, Hmem. simpl.
    eexists. split; [done|]. by repeat split.
  - intros parent rest' elements -> Hobj Helem. simpl.
    unfold push_back_value. rewrite Hobj, Helem. simpl.
    eexists. split; [done|]. by repeat split.
Qed.

(** C7: on a stack [top :: rest], [do_end_object] pops the object frame
    [top] and makes the object of its sorted members, [do_end_array] pops
    the array frame [top] and makes the array of its elements.  With no
    frame left that value is the root; otherwise it is added at the end of
    the new top frame, under the frame's pending name when that is an
    object, as an element when it is an array. *)
Theorem end_pops_and_hands_up
    (root : json) (top : stack_item) (rest : list stack_item) :
  (forall members, object_ top = Some members ->
     handed_up
       (do_end_object sort_members moved_from
          {| root_ := root; stack_ := top :: rest |})
       root (json_object (sort_members members)) rest)
  /\ (forall elements, array_ top = Some elements ->
        handed_up
          (do_end_array moved_from {| root_ := root; stack_ := top :: rest |})
          root (json_array elements) rest).
Proof.
  split.
  - intros members Hm. unfold do_end_object. simpl. rewrite Hm.
    apply after_pop_handed_up.
  - intros elements He. unfold do_end_array. simpl. rewrite He.
    apply after_pop_handed_up.
Qed.

End DeserializerProperties.

Lemma end_pops_and_hands_up_witness :
  do_end_object (fun ms => ms) (fun _ => EmptyString)
    {| root_ := json_null;
       stack_ := [ {| name_ := "k"; is_object_ := true;
                      object_ := Some [("a"%string, json_integer 1)];
                      array_ := None; minimum_structure_capacity_ := 0 |} ] |}
  = Some {| root_ := json_object [("a"%string, json_integer 1)]; stack_ := [] |}
  /\ exists parent',
       do_end_array (fun _ => EmptyString)
         {| root_ := json_null;
            stack_ := [ new_stack_item false 0;
                        {| name_ := "k"; is_object_ := true;
                           object_ := Some [];
                           array_ := None;
                           minimum_structure_capacity_ := 0 |} ] |}
       = Some {| root_ := json_null; stack_ := [parent'] |}
       /\ object_ parent' = Some [("k"%string, json_array [])].
Proof.
  split.
  - destruct (end_pops_and_hands_up (fun ms => ms) (fun _ => EmptyString)
                json_null
                {| name_ := "k"; is_object_ := true;
                   object_ := Some [("a"%string, json_integer 1)];
                   array_ := None; minimum_structure_capacity_ := 0 |} [])
      as [Hobj _].
    destruct (Hobj _ eq_refl) as [Hroot _]. exact (Hroot eq_refl).
  - destruct (end_pops_and_hands_up (fun ms => ms) (fun _ => EmptyString)
                json_null (new_stack_item false 0)
                [ {| name_ := "k"; is_object_ := true; object_ := Some [];
                     array_ := None; minimum_structure_capacity_ := 0 |} ])
      as [_ Harr].
    destruct (Harr [] eq_refl) as (_ & Hparent & _).
    destruct (Hparent _ [] [] eq_refl eq_refl eq_refl) as (p & Hrun & Hmem & _).
    exists p. split; [exact Hrun | exact Hmem].
Defined.

(** * Further properties of the reader *)

Section MoreSwitchLabels.

Variable fmt : bson_format.
Hypothesis distinct : NoDup (case_labels fmt).

Lemma switch_on_double : switch_on fmt (double_cd fmt) = Some case_double.
Proof. unfold switch_on. by decide_labels distinct. Qed.

Lemma switch_on_null : switch_on fmt (null_cd fmt) = Some case_null.
Proof. unfold switch_on. by decide_labels distinct. Qed.

Lemma switch_on_bool : switch_on fmt (bool_cd fmt) = Some case_bool.
Proof. unfold switch_on. by decide_labels distinct. Qed.

Lemma switch_on_timestamp : switch_on fmt (timestamp_cd fmt) = Some case_timestamp.
Proof. unfold switch_on. by decide_labels distinct. Qed.

Lemma switch_on_int64 : switch_on fmt (int64_cd fmt) = Some case_int64.
Proof. unfold switch_on. by decide_labels distinct. Qed.

Lemma switch_on_binary : switch_on fmt (binary_cd fmt) = Some case_binary.
Proof. unfold switch_on. by decide_labels distinct. Qed.

End MoreSwitchLabels.

Lemma le_unsigned_range (bs : list byte) :
  0 <= le_unsigned bs < 256 ^ Z.of_nat (length bs).
Proof.
  induction bs as [|b bs IH]; [simpl; lia|].
  cbn [le_unsigned length]. rewrite Nat2Z.inj_succ, Z.pow_succ_r by lia.
  pose proof (byte_val_range b). nia.
Qed.

Lemma le_unsigned_8_range (bs : list byte) :
  length bs = 8%nat -> 0 <= le_unsigned bs < 2 ^ 64.
Proof.
  intros Hl. pose proof (le_unsigned_range bs) as H. rewrite Hl in H.
  by change (256 ^ Z.of_nat 8) with (2 ^ 64) in H.
Qed.

(** The declared length of a document is read and dropped: two inputs that
    differ only in the four length bytes give [read] the same outcome. *)
Theorem declared_length_ignored
    (fmt : bson_format) (fuel : nat) (st : reader_state)
    (len len' rest : list byte) :
  length len = 4%nat -> length len' = 4%nat ->
  source_ st = len ++ rest ->
  read fmt fuel st = read fmt fuel (set_source (len' ++ rest) st).
Proof.
  intros Hl Hl' Hsrc. destruct fuel as [|fuel]; [done|]. simpl.
  rewrite (read_fixed_enough 4 st _ len rest) by done.
  by rewrite (read_fixed_enough 4 (set_source (len' ++ rest) st) _ len' rest).
Qed.

Lemma declared_length_ignored_witness :
  read bson_codes 5 (initial_reader [x05; x00; x00; x00; x00])
  = read bson_codes 5
      (set_source ([xff; xff; xff; x7f] ++ [x00])
         (initial_reader [x05; x00; x00; x00; x00])).
Proof.
  apply (declared_length_ignored bson_codes 5
           (initial_reader [x05; x00; x00; x00; x00])
           [x05; x00; x00; x00] [xff; xff; xff; x7f] [x00]);
    reflexivity.
Defined.

(** The bool case takes one byte and reports [true] for every value but
    zero; at end of input it throws [bson_error(0)] and the handler gets
    nothing. *)
Theorem bool_case_nonzero_is_true
    (fmt : bson_format) (fuel : nat) (st : reader_state) :
  NoDup (case_labels fmt) ->
  (forall val rest, source_ st = val :: rest ->
     parse_some fmt (S fuel) (bool_cd fmt) st
     = Returned (emit (BoolValue (bool_decide (val <> x00)) tag_none)
                      (set_source rest st)))
  /\ (source_ st = [] ->
        parse_some fmt (S fuel) (bool_cd fmt) st
        = Thrown (bson_error 0) st).
Proof.
  intros Hnd. split.
  - intros val rest Hsrc. simpl. rewrite switch_on_bool, Hsrc by done. simpl.
    repeat f_equal. destruct (Byte.eqb val x00) eqn:E.
    + apply byte_dec_bl in E. by rewrite bool_decide_eq_false_2 by auto.
    + apply eqb_false in E. by rewrite bool_decide_eq_true_2.
  - intros Hsrc. simpl. rewrite switch_on_bool, Hsrc by done. simpl.
    destruct st; simpl in *. by subst.
Qed.

Lemma bool_case_nonzero_is_true_witness :
  parse_some bson_codes 1 x08 (initial_reader [x02; x00])
  = Returned (emit (BoolValue true tag_none)
                (set_source [x00] (initial_reader [x02; x00])))
  /\ parse_some bson_codes 1 x08 (initial_reader [])
     = Thrown (bson_error 0) (initial_reader []).
Proof.
  destruct (bool_case_nonzero_is_true bson_codes 0 (initial_reader [x02; x00])
              bson_codes_distinct) as [Hval _].
  destruct (bool_case_nonzero_is_true bson_codes 0 (initial_reader [])
              bson_codes_distinct) as [_ Hend].
  split; [exact (Hval x02 [x00] eq_refl) | exact (Hend eq_refl)].
Defined.

(** The int64 case reads eight bytes little-endian as a signed 64-bit
    value; the timestamp case reads them unsigned and tags the value
    epoch-time. *)
Theorem int64_and_timestamp_cases
    (fmt : bson_format) (fuel : nat) (st : reader_state)
    (buf rest : list byte) :
  NoDup (case_labels fmt) ->
  length buf = 8%nat ->
  source_ st = buf ++ rest ->
  (exists v,
     parse_some fmt (S fuel) (int64_cd fmt) st
       = Returned (emit (Int64Value v tag_none) (set_source rest st))
     /\ - 2 ^ 63 <= v < 2 ^ 63
     /\ v mod 2 ^ 64 = le_unsigned buf)
  /\ (exists u,
        parse_some fmt (S fuel) (timestamp_cd fmt) st
          = Returned (emit (UInt64Value u tag_epoch_time) (set_source rest st))
        /\ 0 <= u < 2 ^ 64
        /\ u = le_unsigned buf).
Proof.
  intros Hnd Hl Hsrc. pose proof (le_unsigned_8_range buf Hl) as Hr. split.
  - exists (from_little_endian_int64 buf). split; [|split].
    + simpl. rewrite switch_on_int64 by done.
      by rewrite (read_fixed_enough 8 st _ buf rest).
    + unfold from_little_endian_int64, to_signed.
      change (2 ^ (64 - 1)) with (2 ^ 63). case_match; lia.
    + unfold from_little_endian_int64, to_signed.
      change (2 ^ (64 - 1)) with (2 ^ 63). case_match.
      * apply Z.mod_small. lia.
      * replace (le_unsigned buf - 2 ^ 64)
          with (le_unsigned buf + (-1) * 2 ^ 64) by lia.
        rewrite Z_mod_plus_full. apply Z.mod_small. lia.
  - exists (from_little_endian_uint64 buf). split; [|split; [done|done]].
    simpl. rewrite switch_on_timestamp by done.
    by rewrite (read_fixed_enough 8 st _ buf rest).
Qed.

Lemma int64_and_timestamp_cases_witness :
  (exists v,
     parse_some bson_codes 1 x12
       (initial_reader [xff; xff; xff; xff; xff; xff; xff; xff; x00])
       = Returned (emit (Int64Value v tag_none)
           (set_source [x00]
              (initial_reader [xff; xff; xff; xff; xff; xff; xff; xff; x00])))
     /\ - 2 ^ 63 <= v < 2 ^ 63)
  /\ (exists u,
        parse_some bson_codes 1 x11
          (initial_reader [xff; xff; xff; xff; xff; xff; xff; xff; x00])
          = Returned (emit (UInt64Value u tag_epoch_time)
              (set_source [x00]
                 (initial_reader [xff; xff; xff; xff; xff; xff; xff; xff; x00])))
        /\ 0 <= u < 2 ^ 64).
Proof.
  destruct (int64_and_timestamp_cases bson_codes 0
              (initial_reader [xff; xff; xff; xff; xff; xff; xff; xff; x00])
              [xff; xff; xff; xff; xff; xff; xff; xff] [x00]
              bson_codes_distinct eq_refl eq_refl)
    as [(v & Hv & Hr & _) (u & Hu & Hur & _)].
  split; [exists v | exists u]; by split.
Defined.

(** A fixed-width scalar (double, int32, timestamp, int64) with fewer bytes
    left than its width throws [bson_error(0)]; the handler gets nothing and
    the bytes that were left are consumed. *)
Theorem fixed_width_short_read_throws
    (fmt : bson_format) (fuel : nat) (st : reader_state) :
  NoDup (case_labels fmt) ->
  ((length (source_ st) < 8)%nat ->
     parse_some fmt (S fuel) (double_cd fmt) st
       = Thrown (bson_error 0) (set_source [] st)
     /\ parse_some fmt (S fuel) (timestamp_cd fmt) st
       = Thrown (bson_error 0) (set_source [] st)
     /\ parse_some fmt (S fuel) (int64_cd fmt) st
       = Thrown (bson_error 0) (set_source [] st))
  /\ ((length (source_ st) < 4)%nat ->
        parse_some fmt (S fuel) (int32_cd fmt) st
          = Thrown (bson_error 0) (set_source [] st)).
Proof.
  intros Hnd. split; intros Hlen; simpl.
  - rewrite switch_on_double, switch_on_timestamp, switch_on_int64 by done.
    by rewrite !read_fixed_short.
  - rewrite switch_on_int32 by done. by rewrite read_fixed_short.
Qed.

Lemma fixed_width_short_read_throws_witness :
  parse_some bson_codes 1 x01 (initial_reader [x00; x00; x00; x00; x00])
    = Thrown (bson_error 0)
        (set_source [] (initial_reader [x00; x00; x00; x00; x00]))
  /\ parse_some bson_codes 1 x10 (initial_reader [x01; x00])
     = Thrown (bson_error 0) (set_source [] (initial_reader [x01; x00])).
Proof.
  destruct (fixed_width_short_read_throws bson_codes 0
              (initial_reader [x00; x00; x00; x00; x00]) bson_codes_distinct)
    as [H8 _].
  destruct (fixed_width_short_read_throws bson_codes 0
              (initial_reader [x01; x00]) bson_codes_distinct) as [_ H4].
  split.
  - apply H8. simpl. lia.
  - apply H4. simpl. lia.
Defined.

(** The binary case takes the four length bytes and then exactly that many
    bytes as the payload (no subtype byte is read).  A negative length
    throws [length_error], a length beyond the input [bson_error(0)]; in
    both the handler gets nothing. *)
Theorem binary_case_payload
    (fmt : bson_format) (fuel : nat) (st : reader_state)
    (b0 b1 b2 b3 : byte) (tail : list byte) :
  NoDup (case_labels fmt) ->
  source_ st = b0 :: b1 :: b2 :: b3 :: tail ->
  let len := from_little_endian_int32 [b0; b1; b2; b3] in
  (forall payload rest, tail = payload ++ rest ->
     len = Z.of_nat (length payload) ->
     parse_some fmt (S fuel) (binary_cd fmt) st
     = Returned (emit (ByteStringValue payload tag_none) (set_source rest st)))
  /\ (len < 0 ->
        parse_some fmt (S fuel) (binary_cd fmt) st
        = Thrown length_error (set_source tail st))
  /\ (Z.of_nat (length tail) < len ->
        parse_some fmt (S fuel) (binary_cd fmt) st
        = Thrown (bson_error 0) (set_source [] st)).
Proof.
  intros Hnd Hsrc len.
  assert (Hrun : parse_some fmt (S fuel) (binary_cd fmt) st
    = if len <? 0 then Thrown length_error (set_source tail st)
      else if negb (Z.of_nat (length (take (Z.to_nat len) tail)) =? len)
           then Thrown (bson_error 0) (set_source (drop (Z.to_nat len) tail) st)
           else Returned (emit (ByteStringValue (take (Z.to_nat len) tail) tag_none)
                            (set_source (drop (Z.to_nat len) tail) st))).
  { simpl. rewrite switch_on_binary by done.
    by rewrite (read_fixed_enough 4 st _ [b0; b1; b2; b3] tail). }
  rewrite Hrun. split; [|split].
  - intros payload rest -> Hlen. rewrite Hlen.
    rewrite (proj2 (Z.ltb_ge _ _)) by lia. rewrite Nat2Z.id.
    rewrite take_app_length, drop_app_length. by rewrite Z.eqb_refl.
  - intros Hneg. by rewrite (proj2 (Z.ltb_lt _ _)).
  - intros Hshort. rewrite (proj2 (Z.ltb_ge _ _)) by lia.
    rewrite length_take.
    rewrite (proj2 (Z.eqb_neq _ _)) by lia. simpl.
    by rewrite drop_ge by lia.
Qed.

Lemma binary_case_payload_witness :
  parse_some bson_codes 1 x05
    (initial_reader [x02; x00; x00; x00; xaa; xbb; x00])
  = Returned (emit (ByteStringValue [xaa; xbb] tag_none)
       (set_source [x00] (initial_reader [x02; x00; x00; x00; xaa; xbb; x00])))
  /\ parse_some bson_codes 1 x05 (initial_reader [xff; xff; xff; xff; xaa])
     = Thrown length_error
         (set_source [xaa] (initial_reader [xff; xff; xff; xff; xaa]))
  /\ parse_some bson_codes 1 x05 (initial_reader [x03; x00; x00; x00; xaa])
     = Thrown (bson_error 0)
         (set_source [] (initial_reader [x03; x00; x00; x00; xaa])).
Proof.
  split; [|split].
  - apply (binary_case_payload bson_codes 0
             (initial_reader [x02; x00; x00; x00; xaa; xbb; x00])
             x02 x00 x00 x00 [xaa; xbb; x00] bson_codes_distinct eq_refl);
      reflexivity.
  - apply (binary_case_payload bson_codes 0
             (initial_reader [xff; xff; xff; xff; xaa])
             xff xff xff xff [xaa] bson_codes_distinct eq_refl).
    vm_compute. reflexivity.
  - apply (binary_case_payload bson_codes 0
             (initial_reader [x03; x00; x00; x00; xaa])
             x03 x00 x00 x00 [xaa] bson_codes_distinct eq_refl).
    vm_compute. reflexivity.
Defined.

(** A string element whose declared length is zero or negative never
    produces a value: [s.reserve(len - 1)] is asked for more than any string
    can hold and throws [length_error] (at [INT32_MIN] the subtraction
    itself overflows).  The handler gets nothing. *)
Theorem string_nonpositive_length_rejected
    (fmt : bson_format) (fuel : nat) (st : reader_state)
    (b0 b1 b2 b3 : byte) (tail : list byte) :
  NoDup (case_labels fmt) ->
  source_ st = b0 :: b1 :: b2 :: b3 :: tail ->
  from_little_endian_int32 [b0; b1; b2; b3] <= 0 ->
  (forall st', parse_some fmt (S fuel) (string_cd fmt) st <> Returned st')
  /\ (from_little_endian_int32 [b0; b1; b2; b3] <> int32_min ->
        parse_some fmt (S fuel) (string_cd fmt) st
        = Thrown length_error (set_source tail st)).
Proof.
  intros Hnd Hsrc Hlen.
  set (len := from_little_endian_int32 [b0; b1; b2; b3]) in *.
  assert (Hrun : parse_some fmt (S fuel) (string_cd fmt) st
    = if len =? int32_min then Undefined
      else Thrown length_error (set_source tail st)).
  { simpl. rewrite switch_on_string by done.
    rewrite (read_fixed_enough 4 st _ [b0; b1; b2; b3] tail) by done.
    fold len. destruct (len =? int32_min); [done|].
    by rewrite (proj2 (Z.ltb_lt _ _)) by lia. }
  rewrite Hrun. split.
  - intros st'. by destruct (len =? int32_min).
  - intros Hne. by rewrite (proj2 (Z.eqb_neq _ _)).
Qed.

Lemma string_nonpositive_length_rejected_witness :
  parse_some bson_codes 1 x02 (initial_reader [x00; x00; x00; x00; x61])
  = Thrown length_error
      (set_source [x61] (initial_reader [x00; x00; x00; x00; x61])).
Proof.
  apply (string_nonpositive_length_rejected bson_codes 0
           (initial_reader [x00; x00; x00; x00; x61]) x00 x00 x00 x00 [x61]
           bson_codes_distinct eq_refl).
  - vm_compute. discriminate.
  - vm_compute. discriminate.
Defined.

Lemma read_cstring_unterminated (s : list byte) :
  x00 ∉ s -> read_cstring s = (s, []).
Proof.
  induction s as [|c s IH]; intros Hnot; [done|].
  rewrite not_elem_of_cons in Hnot. destruct Hnot as [Hc Hs]. simpl.
  rewrite (byte_eqb_ne c x00) by congruence. by rewrite IH.
Qed.

Lemma read_cstring_terminated (s rest : list byte) :
  x00 ∉ s -> read_cstring (s ++ x00 :: rest) = (s, rest).
Proof.
  induction s as [|c s IH]; intros Hnot; [done|].
  rewrite not_elem_of_cons in Hnot. destruct Hnot as [Hc Hs]. simpl.
  rewrite (byte_eqb_ne c x00) by congruence. by rewrite IH.
Qed.

(** End of input ends an element name and an element list without error:
    a document that stops in the name of a null element, with neither the
    name's NUL nor the list's terminator, decodes like the complete one,
    whatever its length field says. *)
Theorem element_list_ends_at_end_of_input
    (fmt : bson_format) (len s : list byte) :
  NoDup (case_labels fmt) ->
  null_cd fmt <> x00 ->
  length len = 4%nat ->
  x00 ∉ s ->
  decode_bson fmt (len ++ null_cd fmt :: s)
    = Decoded [BeginObject; Name s; NullValue tag_none; EndObject]
  /\ decode_bson fmt (len ++ null_cd fmt :: s ++ [x00; x00])
     = Decoded [BeginObject; Name s; NullValue tag_none; EndObject].
Proof.
  intros Hnd Hnull Hlen Hs.
  assert (Hrun : forall fuel tail rest,
    read_cstring tail = (s, rest) ->
    (rest = [] \/ rest = [x00]) ->
    read fmt (S (S (S fuel))) (initial_reader (len ++ null_cd fmt :: tail))
    = Returned {| source_ := []; handler_ := [BeginObject; Name s;
                                               NullValue tag_none; EndObject];
                  column_ := 1; nesting_depth_ := 0; ec := 0 |}).
  { intros fuel tail rest Hc Hrest.
    change (read fmt (S (S (S fuel))) ?st)
      with (read_fixed 4 st (fun _ st0 =>
              match parse_e_list fmt (S (S fuel)) document
                      (incr_depth (emit BeginObject st0)) with
              | Returned st2 => Returned (decr_depth (emit EndObject st2))
              | o => o
              end)).
    rewrite (read_fixed_enough 4 _ _ len (null_cd fmt :: tail)) by done.
    cbn [parse_e_list source_ set_source emit incr_depth initial_reader
         source_get handler_ column_ nesting_depth_ ec].
    rewrite (byte_eqb_ne _ _ Hnull), Hc.
    cbn [parse_some]. rewrite switch_on_null by done.
    cbn [parse_e_list source_ set_source emit incr_depth initial_reader
         source_get handler_ column_ nesting_depth_ ec].
    destruct Hrest as [-> | ->]; done. }
  unfold decode_bson, enough_fuel. split.
  - replace (3 * length (len ++ null_cd fmt :: s) + 3)%nat
      with (S (S (S (3 * length (len ++ null_cd fmt :: s))))) by lia.
    rewrite (Hrun _ s []); [done | by apply read_cstring_unterminated | by left].
  - replace (3 * length (len ++ null_cd fmt :: s ++ [x00; x00]) + 3)%nat
      with (S (S (S (3 * length (len ++ null_cd fmt :: s ++ [x00; x00])))))
      by lia.
    rewrite (Hrun _ (s ++ [x00; x00]) [x00]);
      [done | by apply read_cstring_terminated | by right].
Qed.

Lemma element_list_ends_at_end_of_input_witness :
  decode_bson bson_codes ([x00; x00; x00; x00] ++ x0a :: [x61; x62])
    = Decoded [BeginObject; Name [x61; x62]; NullValue tag_none; EndObject]
  /\ decode_bson bson_codes
       ([x00; x00; x00; x00] ++ x0a :: [x61; x62] ++ [x00; x00])
     = Decoded [BeginObject; Name [x61; x62]; NullValue tag_none; EndObject].
Proof.
  apply (element_list_ends_at_end_of_input bson_codes
           [x00; x00; x00; x00] [x61; x62] bson_codes_distinct).
  - discriminate.
  - reflexivity.
  - apply (bool_decide_unpack _). vm_compute. exact I.
Defined.

(** ** What a throw leaves behind *)

Lemma read_fixed_thrown (n : nat) (st st' : reader_state) (e : exn)
    (k : list byte -> reader_state -> outcome) :
  read_fixed n st k = Thrown e st' ->
  (e = bson_error 0 /\ (length (source_ st) < n)%nat
   /\ exists src, st' = set_source src st)
  \/ (exists buf rest, source_ st = buf ++ rest /\ length buf = n
                       /\ k buf (set_source rest st) = Thrown e st').
Proof.
  unfold read_fixed, source_read. intros Hk.
  destruct (Nat.eqb (length (take n (source_ st))) n) eqn:E; simpl in Hk.
  - right. apply Nat.eqb_eq in E.
    exists (take n (source_ st)), (drop n (source_ st)). by rewrite take_drop.
  - left. injection Hk as <- <-. apply Nat.eqb_neq in E.
    rewrite length_take in E. split; [done|]. split; [lia | eauto].
Qed.

Lemma left_open_same (st st' : reader_state) :
  in_size_t (nesting_depth_ st) ->
  handler_ st' = handler_ st -> nesting_depth_ st' = nesting_depth_ st ->
  left_open st st' [].
Proof.
  intros Hd Hh Hdep. split.
  - exists []. split; [by rewrite app_nil_r | done].
  - rewrite Hdep. simpl. rewrite Z.add_0_r. symmetry. by apply Z.mod_small.
Qed.

Lemma left_open_after (a b c : reader_state) (opened : list bool) :
  preserves a b -> left_open b c opened -> left_open a c opened.
Proof.
  intros [(e1 & H1 & B1) D1] [(e2 & H2 & B2) D2]. split.
  - exists (e1 ++ e2). split; [by rewrite H2, H1, app_assoc|].
    intros open. by rewrite nest_run_app, B1, B2.
  - by rewrite D2, D1.
Qed.

Lemma left_open_container (b e : event) (kind : bool) (st st0 st' : reader_state)
    (opened : list bool) :
  nest_step [] b = Some [kind] ->
  handler_ st0 = handler_ st -> nesting_depth_ st0 = nesting_depth_ st ->
  left_open (incr_depth (emit b st0)) st' opened ->
  left_open st st' (opened ++ [kind]).
Proof.
  intros Hb Hh Hd [(evs & He & Hn) Hdep]. split.
  - exists (b :: evs). split.
    + rewrite He. simpl. rewrite Hh. by rewrite <- app_assoc.
    + intros open. simpl.
      assert (nest_step open b = Some (kind :: open)) as ->
        by (destruct b; simpl in *; by simplify_eq).
      by rewrite Hn, <- app_assoc.
  - rewrite Hdep. simpl. rewrite Hd, length_app. simpl.
    unfold size_t_modulus. rewrite Zplus_mod_idemp_l. f_equal. lia.
Qed.

Lemma container_thrown (run : reader_state -> outcome) (b e : event)
    (kind : bool) (st st' : reader_state) (x : exn) :
  nest_step [] b = Some [kind] ->
  in_size_t (nesting_depth_ st) ->
  (forall s s' y, in_size_t (nesting_depth_ s) -> run s = Thrown y s' ->
     (y = bson_error 0 \/ y = length_error)
     /\ exists opened, left_open s s' opened) ->
  read_fixed 4 st (fun _ st0 =>
    match run (incr_depth (emit b st0)) with
    | Returned st2 => Returned (decr_depth (emit e st2))
    | o => o
    end) = Thrown x st' ->
  (x = bson_error 0 \/ x = length_error)
  /\ exists opened, left_open st st' opened.
Proof.
  intros Hb Hd Hrun Hthrow.
  apply read_fixed_thrown in Hthrow as [(-> & _ & src & ->) | (buf & rest & _ & _ & Hk)].
  - split; [by left|]. exists []. by apply left_open_same.
  - destruct (run (incr_depth (emit b (set_source rest st)))) as [| y s2 | |] eqn:E;
      try done.
    injection Hk as -> ->.
    apply Hrun in E as [Hy [opened Ho]].
    + split; [done|]. exists (opened ++ [kind]).
      by apply (left_open_container b e kind st (set_source rest st)).
    + simpl. unfold in_size_t. apply Z.mod_pos_bound. by unfold size_t_modulus.
Qed.

Lemma throws_leave_open (fmt : bson_format) (fuel : nat) :
  (forall st st' x, in_size_t (nesting_depth_ st) ->
     read fmt fuel st = Thrown x st' ->
     (x = bson_error 0 \/ x = length_error)
     /\ exists opened, left_open st st' opened)
  /\ (forall type st st' x, in_size_t (nesting_depth_ st) ->
        parse_e_list fmt fuel type st = Thrown x st' ->
        (x = bson_error 0 \/ x = length_error)
        /\ exists opened, left_open st st' opened)
  /\ (forall t st st' x, in_size_t (nesting_depth_ st) ->
        parse_some fmt fuel t st = Thrown x st' ->
        (x = bson_error 0 \/ x = length_error)
        /\ exists opened, left_open st st' opened).
Proof.
  induction fuel as [|fuel (IHr & IHl & IHs)]; [by repeat split|].
  destruct (returns_preserve fmt fuel) as (_ & _ & Hps).
  assert (Hfield : forall n st st' x (k : list byte -> reader_state -> reader_state),
    in_size_t (nesting_depth_ st) ->
    read_fixed n st (fun buf st0 => Returned (k buf st0)) = Thrown x st' ->
    (x = bson_error 0 \/ x = length_error)
    /\ exists opened, left_open st st' opened).
  { intros n st st' x k Hd Hthrow.
    apply read_fixed_thrown in Hthrow as [(-> & _ & src & ->) | (buf & rest & _ & _ & Hk)];
      [|done].
    split; [by left|]. exists []. by apply left_open_same. }
  split; [|split].
  - intros st st' x Hd Hthrow. simpl in Hthrow.
    by apply (container_thrown _ BeginObject EndObject true _ _ _ eq_refl Hd (IHl document)) in Hthrow.
  - intros type st st' x Hd Hthrow. simpl in Hthrow.
    destruct (source_ st) as [|t src] eqn:Hsrc; simpl in Hthrow; [done|].
    destruct (Byte.eqb t x00); [done|].
    destruct (read_cstring src) as [s src'].
    match type of Hthrow with
    | match parse_some _ _ _ ?s2 with _ => _ end = _ =>
        assert (Hp2 : preserves st s2);
        [| assert (Hd2 : in_size_t (nesting_depth_ s2))
             by (by destruct Hp2 as [_ ->]);
           destruct (parse_some fmt fuel t s2) as [st3| y s3 | |] eqn:E;
           try done ]
    end.
    { destruct type.
      - eapply preserves_trans; [apply (preserves_set_source src')|].
        by apply preserves_emit.
      - apply preserves_set_source. }
    + pose proof (Hps _ _ _ Hd2 E) as Hp3.
      assert (Hd3 : in_size_t (nesting_depth_ st3)) by (by destruct Hp3 as [_ ->]).
      apply (IHl _ _ _ _ Hd3) in Hthrow as [Hx [opened Ho]].
      split; [done|]. exists opened.
      eapply left_open_after; [|exact Ho]. by eapply preserves_trans.
    + injection Hthrow as -> ->.
      apply (IHs _ _ _ _ Hd2) in E as [Hx [opened Ho]].
      split; [done|]. exists opened. by eapply left_open_after.
  - intros t st st' x Hd Hthrow. simpl in Hthrow.
    destruct (switch_on fmt t) as [[]|]; try done.
    + by apply (Hfield 8%nat _ _ _ (fun buf st0 => emit _ st0)) in Hthrow.
    + apply read_fixed_thrown in Hthrow
        as [(-> & _ & src & ->) | (buf & rest & _ & _ & Hk)].
      { split; [by left|]. exists []. by apply left_open_same. }
      cbn [source_ set_source source_read] in Hk.
      repeat case_match; try done; simplify_eq.
      * split; [by right|]. exists []. by apply left_open_same.
      * split; [by left|]. exists []. by apply left_open_same.
    + destruct (read fmt fuel st) as [st1| y s1 | |] eqn:E; try done.
      * by destruct (negb _).
      * injection Hthrow as -> ->. by apply IHr in E.
    + by apply (container_thrown _ BeginArray EndArray false _ _ _ eq_refl Hd (IHl document))
        in Hthrow.
    + destruct (source_ st) as [|val src]; simpl in Hthrow; [|done].
      injection Hthrow as <- <-.
      split; [by left|]. exists []. by apply left_open_same.
    + by apply (Hfield 4%nat _ _ _ (fun buf st0 => emit _ st0)) in Hthrow.
    + by apply (Hfield 8%nat _ _ _ (fun buf st0 => emit _ st0)) in Hthrow.
    + by apply (Hfield 8%nat _ _ _ (fun buf st0 => emit _ st0)) in Hthrow.
    + apply read_fixed_thrown in Hthrow
        as [(-> & _ & src & ->) | (buf & rest & _ & _ & Hk)].
      { split; [by left|]. exists []. by apply left_open_same. }
      cbn [source_ set_source source_read] in Hk.
      repeat case_match; try done; simplify_eq.
      * split; [by right|]. exists []. by apply left_open_same.
      * split; [by left|]. exists []. by apply left_open_same.
Qed.

(** Whatever [read] throws is [bson_error(0)] or [length_error].  The
    events the handler got before the throw stay with it: they are the
    prefix of a well-nested stream, the containers begun and not ended are
    left open, and [nesting_depth_] is left higher by their number (nothing
    is emitted or decremented on the way out).  If the length field was
    there, the document's own [BeginObject] is among the open ones. *)
Theorem throw_leaves_containers_open
    (fmt : bson_format) (fuel : nat) (st st' : reader_state) (x : exn) :
  in_size_t (nesting_depth_ st) ->
  read fmt fuel st = Thrown x st' ->
  (x = bson_error 0 \/ x = length_error)
  /\ exists opened,
       left_open st st' opened
       /\ ((4 <= length (source_ st))%nat -> last opened = Some true).
Proof.
  intros Hd Hthrow. destruct fuel as [|fuel]; [done|].
  destruct (throws_leave_open fmt fuel) as (_ & IHl & _).
  simpl in Hthrow.
  apply read_fixed_thrown in Hthrow
    as [(-> & Hshort & src & ->) | (buf & rest & Hsrc & Hbuf & Hk)].
  - split; [by left|]. exists []. split; [by apply left_open_same | lia].
  - destruct (parse_e_list fmt fuel document _) as [| y s2 | |] eqn:E; try done.
    injection Hk as -> ->.
    apply IHl in E as [Hy [opened Ho]].
    + split; [done|]. exists (opened ++ [true]). split.
      * by apply (left_open_container BeginObject EndObject true st
                    (set_source rest st)).
      * intros _. apply last_snoc.
    + simpl. unfold in_size_t. apply Z.mod_pos_bound. by unfold size_t_modulus.
Qed.

Lemma throw_leaves_containers_open_witness :
  exists opened,
    left_open (initial_reader [x05; x00; x00; x00; x08; x61; x00])
      {| source_ := []; handler_ := [BeginObject; Name [x61]];
         column_ := 1; nesting_depth_ := 1; ec := 0 |} opened
    /\ last opened = Some true.
Proof.
  destruct (throw_leaves_containers_open bson_codes 3
              (initial_reader [x05; x00; x00; x00; x08; x61; x00])
              {| source_ := []; handler_ := [BeginObject; Name [x61]];
                 column_ := 1; nesting_depth_ := 1; ec := 0 |}
              (bson_error 0))
    as (_ & opened & Ho & Hlast).
  - unfold in_size_t, size_t_modulus. simpl. lia.
  - reflexivity.
  - exists opened. split; [exact Ho | apply Hlast; simpl; lia].
Defined.

(** ** The reported position *)

Lemma read_fixed_column (n : nat) (st : reader_state)
    (k : list byte -> reader_state -> outcome) :
  (forall buf st0, column_ st0 = column_ st -> column_kept st0 (k buf st0)) ->
  column_kept st (read_fixed n st k).
Proof.
  intros Hk. unfold read_fixed, source_read. case_match; [done|].
  specialize (Hk (take n (source_ st)) (set_source (drop n (source_ st)) st) eq_refl).
  unfold column_kept in *. by case_match.
Qed.

Lemma column_kept_bind (st st1 : reader_state) (o : outcome)
    (k : reader_state -> outcome) :
  column_ st1 = column_ st ->
  column_kept st1 o ->
  (forall st2, column_ st2 = column_ st -> column_kept st2 (k st2)) ->
  column_kept st
    match o with
    | Returned st2 => k st2
    | Thrown e st2 => Thrown e st2
    | Undefined => Undefined
    | OutOfFuel => OutOfFuel
    end.
Proof.
  intros H1 Ho Hk. destruct o as [st2| e st2| |]; simpl in *; try done.
  - specialize (Hk st2 ltac:(congruence)).
    unfold column_kept in *. case_match; congruence.
  - congruence.
Qed.

Lemma reader_keeps_column (fmt : bson_format) (fuel : nat) :
  (forall st, column_kept st (read fmt fuel st))
  /\ (forall type st, column_kept st (parse_e_list fmt fuel type st))
  /\ (forall t st, column_kept st (parse_some fmt fuel t st)).
Proof.
  induction fuel as [|fuel (IHr & IHl & IHs)]; [by repeat split|].
  assert (Hcontainer : forall b e st,
    column_kept st (read_fixed 4 st (fun _ st0 =>
      match parse_e_list fmt fuel document (incr_depth (emit b st0)) with
      | Returned st2 => Returned (decr_depth (emit e st2))
      | o => o
      end))).
  { intros b e st. apply read_fixed_column. intros _ st0 H0.
    apply (column_kept_bind st0 (incr_depth (emit b st0)) _
             (fun st2 => Returned (decr_depth (emit e st2))));
      [done | apply IHl | by intros st2 H2]. }
  split; [|split].
  - intros st. simpl. apply Hcontainer.
  - intros type st. simpl.
    destruct (source_ st) as [|t src]; simpl; [done|].
    destruct (Byte.eqb t x00); [done|].
    destruct (read_cstring src) as [s src'].
    match goal with
    | |- column_kept _ (match parse_some _ _ _ ?s2 with _ => _ end) =>
        apply (column_kept_bind st s2 _ (fun st3 => parse_e_list fmt fuel type st3));
          [by destruct type | apply IHs | intros st3 _; apply IHl]
    end.
  - intros t st. simpl.
    assert (Hfield : forall n (k : list byte -> reader_state -> reader_state),
      (forall buf st0, column_ (k buf st0) = column_ st0) ->
      column_kept st (read_fixed n st (fun buf st0 => Returned (k buf st0)))).
    { intros n k Hk. apply read_fixed_column. intros buf st0 H0. simpl.
      by rewrite Hk. }
    destruct (switch_on fmt t) as [[]|].
    + by apply (Hfield 8%nat (fun buf st0 => emit _ st0)).
    + apply read_fixed_column. intros buf st0 H0.
      cbn [source_ set_source source_read]. by repeat case_match.
    + specialize (IHr st). destruct (read fmt fuel st); try done.
      by destruct (negb _).
    + apply Hcontainer.
    + done.
    + by destruct (source_ st).
    + by apply (Hfield 4%nat (fun buf st0 => emit _ st0)).
    + by apply (Hfield 8%nat (fun buf st0 => emit _ st0)).
    + by apply (Hfield 8%nat (fun buf st0 => emit _ st0)).
    + apply read_fixed_column. intros buf st0 H0.
      cbn [source_ set_source source_read]. by repeat case_match.
    + done.
Qed.

(** The reader never moves its position: after [read], returned or
    thrown, [column_number()] is what it was before (1 for a fresh reader)
    and [line_number()] is 1, however many bytes were consumed. *)
Theorem position_never_advances
    (fmt : bson_format) (fuel : nat) (st st' : reader_state) :
  (read fmt fuel st = Returned st'
   \/ exists x, read fmt fuel st = Thrown x st') ->
  column_number st' = column_number st /\ line_number st' = 1.
Proof.
  intros Hout. split; [|done].
  destruct (reader_keeps_column fmt fuel) as (Hr & _ & _).
  specialize (Hr st). by destruct Hout as [Hret | [x Hthrow]]; rewrite ?Hret, ?Hthrow in Hr.
Qed.

Lemma position_never_advances_witness :
  column_number
    {| source_ := []; handler_ := [BeginObject; Name [x61]];
       column_ := 1; nesting_depth_ := 1; ec := 0 |} = 1
  /\ line_number
       {| source_ := []; handler_ := [BeginObject; Name [x61]];
          column_ := 1; nesting_depth_ := 1; ec := 0 |} = 1.
Proof.
  apply (position_never_advances bson_codes 3
           (initial_reader [x05; x00; x00; x00; x08; x61; x00])).
  right. exists (bson_error 0). reflexivity.
Defined.

(** ** The recursion budget does not matter *)

Lemma container_budget (run run' : reader_state -> outcome) (b e : event)
    (st : reader_state) :
  (forall s, run s <> OutOfFuel -> run' s = run s) ->
  read_fixed 4 st (fun _ st0 =>
    match run (incr_depth (emit b st0)) with
    | Returned st2 => Returned (decr_depth (emit e st2))
    | o => o
    end) <> OutOfFuel ->
  read_fixed 4 st (fun _ st0 =>
    match run' (incr_depth (emit b st0)) with
    | Returned st2 => Returned (decr_depth (emit e st2))
    | o => o
    end)
  = read_fixed 4 st (fun _ st0 =>
    match run (incr_depth (emit b st0)) with
    | Returned st2 => Returned (decr_depth (emit e st2))
    | o => o
    end).
Proof.
  intros Hrun. unfold read_fixed, source_read.
  destruct (negb _); [done|].
  intros Hne. rewrite Hrun; [done|]. intros Hoof. by rewrite Hoof in Hne.
Qed.

Lemma one_more_fuel (fmt : bson_format) (fuel : nat) :
  (forall st, read fmt fuel st <> OutOfFuel ->
     read fmt (S fuel) st = read fmt fuel st)
  /\ (forall type st, parse_e_list fmt fuel type st <> OutOfFuel ->
        parse_e_list fmt (S fuel) type st = parse_e_list fmt fuel type st)
  /\ (forall t st, parse_some fmt fuel t st <> OutOfFuel ->
        parse_some fmt (S fuel) t st = parse_some fmt fuel t st).
Proof.
  induction fuel as [|fuel (IHr & IHl & IHs)]; [by repeat split|].
  split; [|split].
  - intros st Hne.
    change (read fmt (S (S fuel)) st) with
      (read_fixed 4 st (fun _ st0 =>
         match parse_e_list fmt (S fuel) document (incr_depth (emit BeginObject st0)) with
         | Returned st2 => Returned (decr_depth (emit EndObject st2))
         | o => o
         end)).
    change (read fmt (S fuel) st) with
      (read_fixed 4 st (fun _ st0 =>
         match parse_e_list fmt fuel document (incr_depth (emit BeginObject st0)) with
         | Returned st2 => Returned (decr_depth (emit EndObject st2))
         | o => o
         end)) in *.
    exact (container_budget (parse_e_list fmt fuel document)
             (parse_e_list fmt (S fuel) document) BeginObject EndObject st
             (IHl document) Hne).
  - intros type st Hne.
    cbn [parse_e_list] in Hne |- *.
    destruct (source_get (source_ st)) as [[t|] src]; [|done].
    destruct (Byte.eqb t x00); [done|].
    destruct (read_cstring src) as [s src'].
    match goal with
    | |- match parse_some _ _ _ ?s2 with _ => _ end = _ =>
        pose proof (IHs t s2) as Hs;
        destruct (parse_some fmt fuel t s2) as [st3| | |] eqn:E
    end; try done.
    + rewrite Hs by done. by apply IHl.
    + by rewrite Hs.
    + by rewrite Hs.
  - intros t st Hne.
    cbn [parse_some] in Hne |- *.
    destruct (switch_on fmt t) as [[]|]; try done.
    + pose proof (IHr st) as Hr.
      destruct (read fmt fuel st) eqn:E; try done; by rewrite Hr.
    + exact (container_budget (parse_e_list fmt fuel document)
               (parse_e_list fmt (S fuel) document) BeginArray EndArray st
               (IHl document) Hne).
Qed.

Lemma more_fuel (fmt : bson_format) (fuel k : nat) (st : reader_state) :
  read fmt fuel st <> OutOfFuel ->
  read fmt (fuel + k) st = read fmt fuel st.
Proof.
  intros Hne. induction k as [|k IH].
  - by rewrite Nat.add_0_r.
  - rewrite Nat.add_succ_r.
    destruct (one_more_fuel fmt (fuel + k)) as (Hr & _ & _).
    rewrite Hr; [done|]. by rewrite IH.
Qed.

(** [decode_bson] ends on every input: on [n] bytes the calls of [read],
    [parse_e_list] and [parse_some] never nest deeper than [3 * n + 3],
    each level having consumed input; a larger budget gives [read] the
    same outcome. *)
Theorem decode_bson_always_ends (fmt : bson_format) (v : list byte) (k : nat) :
  decode_bson fmt v <> DecodeOutOfFuel
  /\ read fmt (enough_fuel (length v)) (initial_reader v) <> OutOfFuel
  /\ read fmt (enough_fuel (length v) + k) (initial_reader v)
     = read fmt (enough_fuel (length v)) (initial_reader v).
Proof.
  assert (Hne : read fmt (enough_fuel (length v)) (initial_reader v) <> OutOfFuel).
  { destruct (fuel_suffices fmt (enough_fuel (length v))) as (Hr & _ & _).
    apply Hr. unfold enough_fuel. simpl. lia. }
  split; [|split; [done|]].
  - unfold decode_bson. destruct (read _ _ _); try done. by case_match.
  - by apply more_fuel.
Qed.

(** * Further properties of the deserializer *)

Lemma json_nested_ind (P : json -> Prop) :
  P json_null ->
  (forall b, P (json_bool b)) ->
  (forall z, P (json_integer z)) ->
  (forall z, P (json_unsigned z)) ->
  (forall f, P (json_float f)) ->
  (forall s, P (json_string s)) ->
  (forall elements, Forall P elements -> P (json_array elements)) ->
  (forall members, Forall (fun kv => P kv.2) members -> P (json_object members)) ->
  forall v, P v.
Proof.
  intros Hnull Hbool Hint Huint Hfloat Hstr Harr Hobj.
  fix IH 1. intros [|b|z|z|f|s|elements|members].
  - exact Hnull.
  - exact (Hbool b).
  - exact (Hint z).
  - exact (Huint z).
  - exact (Hfloat f).
  - exact (Hstr s).
  - apply Harr. induction elements as [|x xs IHxs]; constructor.
    + exact (IH x).
    + exact IHxs.
  - apply Hobj. induction members as [|[k x] ms IHms]; constructor.
    + exact (IH x).
    + exact IHms.
Qed.

Section FeedProperties.

Variable sort_members : list (string * json) -> list (string * json).
Variable moved_from : string -> string.

Local Abbreviation run := (feed sort_members moved_from).
Local Abbreviation step := (handle sort_members moved_from).
Local Abbreviation sorted := (sorted_json sort_members).

Lemma events_of_array (elements : list json) :
  events_of (json_array elements)
  = begin_array 0 :: concat (map events_of elements) ++ [end_array].
Proof. reflexivity. Qed.

Lemma events_of_object (members : list (string * json)) :
  events_of (json_object members)
  = begin_object 0
      :: concat (map (fun kv => match kv with
                                | (k, x) => name k :: events_of x
                                end) members)
      ++ [end_object].
Proof. reflexivity. Qed.

Lemma sorted_json_array (elements : list json) :
  sorted (json_array elements) = json_array (map sorted elements).
Proof. reflexivity. Qed.

Lemma sorted_json_object (members : list (string * json)) :
  sorted (json_object members)
  = json_object (sort_members (map (fun kv => match kv with
                                              | (k, x) => (k, sorted x)
                                              end) members)).
Proof. reflexivity. Qed.

Lemma feed_cons (e : input_event) (evs : list input_event) (d : deserializer) :
  run (e :: evs) d = match step e d with
                      | Some d' => run evs d'
                      | None => None
                      end.
Proof. reflexivity. Qed.

Lemma feed_app (a b : list input_event) (d : deserializer) :
  run (a ++ b) d = match run a d with
                    | Some d' => run b d'
                    | None => None
                    end.
Proof.
  revert d. induction a as [|e a IH]; intros d; [done|].
  simpl. destruct (step e d); [apply IH | done].
Qed.

(** Feeding whole values into an open array frame. *)
Lemma feed_elements (elements : list json) (root : json)
    (name0 : string) (cap : Z) (acc : list json) (o : option (list (string * json)))
    (rest : list stack_item) :
  Forall (fun x => forall root top rest,
            run (events_of x) {| root_ := root; stack_ := top :: rest |}
            = push_scalar moved_from (sorted x)
                {| root_ := root; stack_ := top :: rest |}) elements ->
  run (concat (map events_of elements))
    {| root_ := root;
       stack_ := {| name_ := name0; is_object_ := false; object_ := o;
                    array_ := Some acc;
                    minimum_structure_capacity_ := cap |} :: rest |}
  = Some {| root_ := root;
            stack_ := {| name_ := name0; is_object_ := false; object_ := o;
                         array_ := Some (acc ++ map sorted elements);
                         minimum_structure_capacity_ := cap |} :: rest |}.
Proof.
  intros Hall. revert acc.
  induction Hall as [|x xs Hx _ IH]; intros acc; simpl.
  - by rewrite app_nil_r.
  - rewrite feed_app, Hx. simpl. rewrite IH. by rewrite <- app_assoc.
Qed.

(** Feeding named values into an open object frame. *)
Lemma feed_members (members : list (string * json)) (root : json)
    (name0 : string) (cap : Z) (acc : list (string * json))
    (a : option (list json)) (rest : list stack_item) :
  Forall (fun kv => forall root top rest,
            run (events_of kv.2) {| root_ := root; stack_ := top :: rest |}
            = push_scalar moved_from (sorted kv.2)
                {| root_ := root; stack_ := top :: rest |}) members ->
  exists name1,
    run (concat (map (fun kv => match kv with
                                 | (k, x) => name k :: events_of x
                                 end) members))
      {| root_ := root;
         stack_ := {| name_ := name0; is_object_ := true; object_ := Some acc;
                      array_ := a;
                      minimum_structure_capacity_ := cap |} :: rest |}
    = Some {| root_ := root;
              stack_ := {| name_ := name1; is_object_ := true;
                           object_ := Some (acc ++ map (fun kv =>
                                                match kv with
                                                | (k, x) => (k, sorted x)
                                                end) members);
                           array_ := a;
                           minimum_structure_capacity_ := cap |} :: rest |}.
Proof.
  intros Hall. revert acc name0.
  induction Hall as [|[k x] ms Hx _ IH]; intros acc name0; simpl.
  - exists name0. by rewrite app_nil_r.
  - rewrite feed_app. simpl in Hx. rewrite Hx. simpl.
    destruct (IH (acc ++ [(k, sorted x)]) (moved_from k)) as [name1 H1].
    exists name1. rewrite H1. by rewrite <- app_assoc.
Qed.

Lemma feed_array (elements : list json) (root : json) (stack : list stack_item) :
  Forall (fun x => forall root top rest,
            run (events_of x) {| root_ := root; stack_ := top :: rest |}
            = push_scalar moved_from (sorted x)
                {| root_ := root; stack_ := top :: rest |}) elements ->
  run (events_of (json_array elements)) {| root_ := root; stack_ := stack |}
  = after_pop moved_from (sorted (json_array elements)) root stack.
Proof.
  intros Hall. rewrite events_of_array, feed_cons.
  cbn [handle do_begin_array new_stack_item root_ stack_].
  rewrite feed_app.
  change (new_stack_item false 0)
    with {| name_ := EmptyString; is_object_ := false; object_ := None;
            array_ := Some []; minimum_structure_capacity_ := 0 |}.
  rewrite (feed_elements elements root EmptyString 0 [] None stack Hall).
  rewrite sorted_json_array, feed_cons.
  cbn [handle do_end_array stack_ root_ array_ app feed].
  by destruct (after_pop _ _ _ _).
Qed.

Lemma feed_object (members : list (string * json)) (root : json)
    (stack : list stack_item) :
  Forall (fun kv => forall root top rest,
            run (events_of kv.2) {| root_ := root; stack_ := top :: rest |}
            = push_scalar moved_from (sorted kv.2)
                {| root_ := root; stack_ := top :: rest |}) members ->
  run (events_of (json_object members)) {| root_ := root; stack_ := stack |}
  = after_pop moved_from (sorted (json_object members)) root stack.
Proof.
  intros Hall. rewrite events_of_object, feed_cons.
  cbn [handle do_begin_object new_stack_item root_ stack_].
  rewrite feed_app.
  change (new_stack_item true 0)
    with {| name_ := EmptyString; is_object_ := true; object_ := Some [];
            array_ := None; minimum_structure_capacity_ := 0 |}.
  destruct (feed_members members root EmptyString 0 [] None stack Hall)
    as [name1 H1].
  rewrite H1, sorted_json_object, feed_cons.
  cbn [handle do_end_object stack_ root_ object_ app feed].
  by destruct (after_pop _ _ _ _).
Qed.

Lemma after_pop_push (val root : json) (top : stack_item) (rest : list stack_item) :
  after_pop moved_from val root (top :: rest)
  = push_scalar moved_from val {| root_ := root; stack_ := top :: rest |}.
Proof. reflexivity. Qed.

Lemma feed_value (v : json) :
  forall root top rest,
    run (events_of v) {| root_ := root; stack_ := top :: rest |}
    = push_scalar moved_from (sorted v)
        {| root_ := root; stack_ := top :: rest |}.
Proof.
  induction v as [|b|z|z|f|s|elements IH|members IH] using json_nested_ind;
    intros root top rest.
  1-6: cbn [events_of sorted_json]; rewrite feed_cons;
       cbn [handle feed];
       unfold do_null_value, do_bool_value, do_integer_value,
         do_unsigned_integer_value, do_float_value, do_string_value;
       by destruct (push_scalar _ _ _).
  - by rewrite feed_array, after_pop_push.
  - by rewrite feed_object, after_pop_push.
Qed.

(** The deserializer rebuilds the value its events describe.  Fed the
    events of a whole value while a frame is open, the stack ends up as if
    the finished value (members of every object sorted by [sort_members])
    had been pushed into that frame in one step; fed the events of an array
    or object on an empty stack, it ends with that value as the root and the
    stack empty again. *)
Theorem deserializer_rebuilds_value (v : json) (root : json)
    (top : stack_item) (rest : list stack_item) :
  run (events_of v) {| root_ := root; stack_ := top :: rest |}
  = push_scalar moved_from (sorted v)
      {| root_ := root; stack_ := top :: rest |}
  /\ (forall elements, v = json_array elements ->
        run (events_of v) {| root_ := root; stack_ := [] |}
        = Some {| root_ := sorted v; stack_ := [] |})
  /\ (forall members, v = json_object members ->
        run (events_of v) {| root_ := root; stack_ := [] |}
        = Some {| root_ := sorted v; stack_ := [] |}).
Proof.
  split; [apply feed_value|]. split.
  - intros elements ->. rewrite feed_array; [done|].
    apply Forall_forall. intros x _. apply feed_value.
  - intros members ->. rewrite feed_object; [done|].
    apply Forall_forall. intros x _. apply feed_value.
Qed.

End FeedProperties.

Lemma deserializer_rebuilds_value_witness :
  feed (fun ms => ms) (fun _ => EmptyString)
    (events_of (json_object [("a"%string, json_array [json_integer 1; json_null])]))
    {| root_ := json_null; stack_ := [] |}
  = Some {| root_ := json_object [("a"%string,
                                   json_array [json_integer 1; json_null])];
            stack_ := [] |}.
Proof.
  destruct (deserializer_rebuilds_value (fun ms => ms) (fun _ => EmptyString)
              (json_object [("a"%string, json_array [json_integer 1; json_null])])
              json_null (new_stack_item false 0) []) as (_ & _ & Hobj).
  exact (Hobj _ eq_refl).
Defined.

Section HandlerLaws.

Variable sort_members : list (string * json) -> list (string * json).
Variable moved_from : string -> string.

Local Abbreviation step := (handle sort_members moved_from).

Lemma push_back_value_some (val : json) (top top' : stack_item) :
  push_back_value moved_from val top = Some top' ->
  is_object_ top' = is_object_ top
  /\ (frame_ok top -> frame_ok top').
Proof.
  unfold push_back_value, is_object, frame_ok. intros Hp.
  destruct (is_object_ top) eqn:Hk.
  - destruct (object_ top) eqn:Ho; [|done]. injection Hp as <-. simpl.
    rewrite ?Hk. split; [done|]. intros [_ Ha]. split; [by eexists | done].
  - destruct (array_ top) eqn:Ha; [|done]. injection Hp as <-. simpl.
    rewrite ?Hk. split; [done|]. intros [_ Ho]. split; [by eexists | done].
Qed.

Lemma push_back_value_ok (val : json) (top : stack_item) :
  frame_ok top -> is_Some (push_back_value moved_from val top).
Proof.
  unfold push_back_value, is_object, frame_ok.
  destruct (is_object_ top); intros [[x Hx] _]; rewrite Hx; by eexists.
Qed.

Lemma push_scalar_some (val : json) (d d' : deserializer) :
  push_scalar moved_from val d = Some d' ->
  length (stack_ d') = length (stack_ d)
  /\ root_ d' = root_ d
  /\ (Forall frame_ok (stack_ d) -> Forall frame_ok (stack_ d')).
Proof.
  unfold push_scalar. destruct (stack_ d) as [|top rest]; [done|].
  destruct (push_back_value moved_from val top) as [top'|] eqn:Hp; [|done].
  simpl. intros [= <-]. simpl. split; [done|]. split; [done|].
  intros Hok. apply Forall_cons in Hok as [Htop Hrest].
  apply Forall_cons. split; [|done].
  by apply (push_back_value_some val top top').
Qed.

Lemma after_pop_some (val root : json) (rest : list stack_item) (d' : deserializer) :
  after_pop moved_from val root rest = Some d' ->
  length (stack_ d') = length rest
  /\ (root_ d' = root \/ stack_ d' = [])
  /\ (Forall frame_ok rest -> Forall frame_ok (stack_ d')).
Proof.
  unfold after_pop. destruct rest as [|parent rest'].
  - intros [= <-]. simpl. by repeat split; auto.
  - destruct (push_back_value moved_from val parent) as [parent'|] eqn:Hp; [|done].
    simpl. intros [= <-]. simpl. split; [done|]. split; [by left|].
    intros Hok. apply Forall_cons in Hok as [Hp' Hrest].
    apply Forall_cons. split; [|done].
    by apply (push_back_value_some val parent parent').
Qed.

(** Every handler moves the stack by exactly one frame or not at all:
    a begin pushes one, an end pops one, a name or a scalar leaves the
    number of frames alone.  [root_] is written by no call but the end that
    empties the stack. *)
Theorem handlers_move_one_frame (e : input_event) (d d' : deserializer) :
  step e d = Some d' ->
  Z.of_nat (length (stack_ d'))
    = Z.of_nat (length (stack_ d)) + depth_change e
  /\ (root_ d' = root_ d
      \/ (stack_ d' = [] /\ (e = end_object \/ e = end_array))).
Proof.
  intros Hstep.
  destruct e; simpl in Hstep;
    try (apply push_scalar_some in Hstep as (Hlen & Hroot & _);
         simpl; split; [lia | by left]).
  - injection Hstep as <-. simpl. split; [lia | by left].
  - unfold do_end_object in Hstep.
    destruct (stack_ d) as [|top rest]; [done|].
    destruct (object_ top); [|done].
    apply after_pop_some in Hstep as (Hlen & Hroot & _).
    simpl. split; [lia|]. destruct Hroot; [by left | right; auto].
  - injection Hstep as <-. simpl. split; [lia | by left].
  - unfold do_end_array in Hstep.
    destruct (stack_ d) as [|top rest]; [done|].
    destruct (array_ top); [|done].
    apply after_pop_some in Hstep as (Hlen & Hroot & _).
    simpl. split; [lia|]. destruct Hroot; [by left | right; auto].
  - unfold do_name in Hstep. destruct (stack_ d) as [|top rest]; [done|].
    injection Hstep as <-. simpl. split; [lia | by left].
Qed.

(** On a stack of well-formed frames (each holding the container its
    [is_object_] says, as [stack_item]'s constructor leaves it) a call is
    undefined only with no frame open, or for an end of the wrong kind;
    every other call is carried out and leaves the frames well-formed. *)
Theorem handlers_defined_on_well_formed_stacks (e : input_event) (d : deserializer) :
  Forall frame_ok (stack_ d) ->
  (step e d = None <-> undefined_at e (stack_ d))
  /\ (forall d', step e d = Some d' -> Forall frame_ok (stack_ d')).
Proof.
  intros Hok.
  assert (Hscalar : forall val,
    (push_scalar moved_from val d = None <->
       match stack_ d with [] => True | _ :: _ => False end)
    /\ (forall d', push_scalar moved_from val d = Some d' ->
          Forall frame_ok (stack_ d'))).
  { intros val. split.
    - unfold push_scalar. destruct (stack_ d) as [|top rest] eqn:Hs; [done|].
      apply Forall_cons in Hok as [Htop _].
      destruct (push_back_value_ok val top Htop) as [top' ->]. simpl.
      split; [done | tauto].
    - intros d' Hp. by apply push_scalar_some in Hp as (_ & _ & Hk); auto. }
  assert (Hpop : forall val root rest, Forall frame_ok rest ->
    is_Some (after_pop moved_from val root rest)).
  { intros val root rest Hrest. unfold after_pop.
    destruct rest as [|parent rest']; [by eexists|].
    apply Forall_cons in Hrest as [Hp _].
    destruct (push_back_value_ok val parent Hp) as [p' ->]. by eexists. }
  destruct e; simpl; try apply Hscalar.
  - split; [done|]. intros d' [= <-]. simpl. apply Forall_cons.
    split; [|done]. unfold frame_ok. simpl. split; [by eexists | done].
  - unfold do_end_object. destruct (stack_ d) as [|top rest] eqn:Hs; [done|].
    apply Forall_cons in Hok as [Htop Hrest]. unfold frame_ok in Htop.
    destruct (is_object_ top) eqn:Hk.
    + destruct Htop as [[members Hm] _]. rewrite Hm.
      destruct (Hpop (json_object (sort_members members)) (root_ d) rest Hrest)
        as [d1 Hd1].
      rewrite Hd1. split; [done|]. intros d' [= <-].
      by apply after_pop_some in Hd1 as (_ & _ & Hk'); auto.
    + destruct Htop as [_ ->]. done.
  - split; [done|]. intros d' [= <-]. simpl. apply Forall_cons.
    split; [|done]. unfold frame_ok. simpl. split; [by eexists | done].
  - unfold do_end_array. destruct (stack_ d) as [|top rest] eqn:Hs; [done|].
    apply Forall_cons in Hok as [Htop Hrest]. unfold frame_ok in Htop.
    destruct (is_object_ top) eqn:Hk.
    + destruct Htop as [_ ->]. done.
    + destruct Htop as [[elements He] _]. rewrite He.
      destruct (Hpop (json_array elements) (root_ d) rest Hrest) as [d1 Hd1].
      rewrite Hd1. split; [done|]. intros d' [= <-].
      by apply after_pop_some in Hd1 as (_ & _ & Hk'); auto.
  - unfold do_name. destruct (stack_ d) as [|top rest] eqn:Hs; [done|].
    split; [done|]. intros d' [= <-]. simpl.
    apply Forall_cons in Hok as [Htop Hrest]. apply Forall_cons.
    split; [|done]. by unfold frame_ok in *.
Qed.

End HandlerLaws.

Lemma handlers_move_one_frame_witness :
  Z.of_nat (length ([] : list stack_item))
    = Z.of_nat (length [new_stack_item false 0]) + depth_change end_array
  /\ (json_array [] = json_null
      \/ (([] : list stack_item) = [] /\ (end_array = end_object \/ end_array = end_array))).
Proof.
  apply (handlers_move_one_frame (fun ms => ms) (fun _ => EmptyString) end_array
           {| root_ := json_null; stack_ := [new_stack_item false 0] |}
           {| root_ := json_array []; stack_ := [] |}).
  reflexivity.
Defined.

Lemma handlers_defined_on_well_formed_stacks_witness :
  handle (fun ms => ms) (fun _ => EmptyString) end_object
    {| root_ := json_null; stack_ := [new_stack_item false 0] |} = None
  /\ handle (fun ms => ms) (fun _ => EmptyString) null_value
       {| root_ := json_null; stack_ := [] |} = None.
Proof.
  assert (Hok : Forall frame_ok [new_stack_item false 0]).
  { apply Forall_cons. split; [|apply Forall_nil_2].
    unfold frame_ok. simpl. split; [by eexists | reflexivity]. }
  split.
  - apply (proj1 (handlers_defined_on_well_formed_stacks (fun ms => ms)
                    (fun _ => EmptyString) end_object
                    {| root_ := json_null; stack_ := [new_stack_item false 0] |}
                    Hok)).
    reflexivity.
  - apply (proj1 (handlers_defined_on_well_formed_stacks (fun ms => ms)
                    (fun _ => EmptyString) null_value
                    {| root_ := json_null; stack_ := [] |} (Forall_nil_2 _))).
    exact I.
Defined.

(** * Further properties of [conversion_traits] *)

Section DecodeProperties.

Context {T : Type}.

Lemma vector_loop_appends (items v : list T) :
  vector_loop T items v = v ++ items.
Proof.
  revert v. induction items as [|x rest IH]; intros v; simpl.
  - by rewrite app_nil_r.
  - by rewrite IH, <- app_assoc.
Qed.

(** The raising vector-like decode keeps every element, in stream order.
    When the stream breaks off with error [e] after the elements [xs], it
    raises [e]. *)
Theorem vector_decode_keeps_order (xs : list T) (e : Z) :
  decode_vector T (stream_of xs) = Value xs
  /\ decode_vector T {| seq_items := xs; seq_error := Some e |} = Raise e.
Proof.
  unfold decode_vector. simpl. by rewrite vector_loop_appends.
Qed.

End DecodeProperties.

Section MapDecodeProperties.

Context {K : Type} `{Countable K} {V : Type}.

Lemma map_loop_lookup_none (items : list (K * V)) (m : gmap K V) (k : K) :
  map_loop items m !! k = None <-> m !! k = None /\ k ∉ items.*1.
Proof.
  revert m. induction items as [|[k' v'] rest IH]; intros m; simpl.
  - split; [intros Hm; split; [done | apply not_elem_of_nil] | by intros [? _]].
  - rewrite IH, not_elem_of_cons. simpl. split.
    + intros [Hemp Hrest]. destruct (decide (k' = k)) as [->|Hne].
      * exfalso. unfold emplace in Hemp. destruct (m !! k) eqn:E; [congruence|].
        by rewrite lookup_insert_eq in Hemp.
      * rewrite emplace_other in Hemp by done. split; [done|]. split; [congruence|done].
    + intros (Hm & Hne & Hrest). split; [|done].
      rewrite emplace_other by congruence. done.
Qed.

Lemma map_loop_nodup (items : list (K * V)) (m : gmap K V) (k : K) (v : V) :
  NoDup items.*1 -> m !! k = None -> (k, v) ∈ items ->
  map_loop items m !! k = Some v.
Proof.
  revert m. induction items as [|[k' v'] rest IH]; intros m Hnd Hm Hin.
  - by apply elem_of_nil in Hin.
  - simpl in *. apply NoDup_cons in Hnd as [Hk' Hnd].
    apply elem_of_cons in Hin as [Heq | Hin].
    + injection Heq as <- <-. apply map_loop_present. by apply emplace_absent.
    + apply IH; [done| |done].
      rewrite emplace_other; [done|]. intros ->. apply Hk'.
      apply list_elem_of_fmap. by exists (k, v).
Qed.

(** The raising map-like decode loses no key: a key is absent from the
    result exactly when no entry of the stream has it.  When the keys of the
    stream are pairwise different the result holds every entry as it
    came. *)
Theorem map_decode_keeps_every_key (items : list (K * V)) :
  exists m,
    decode_map (stream_of items) = Value m
    /\ (forall k, m !! k = None <-> k ∉ items.*1)
    /\ (NoDup items.*1 -> forall k v, (k, v) ∈ items -> m !! k = Some v).
Proof.
  exists (map_loop items ∅). repeat split.
  - intros Hk. apply map_loop_lookup_none in Hk. tauto.
  - intros Hk. apply map_loop_lookup_none. split; [apply lookup_empty | done].
  - intros Hnd k v Hin. apply map_loop_nodup; [done | apply lookup_empty | done].
Qed.

End MapDecodeProperties.

Lemma map_decode_keeps_every_key_witness :
  exists m : gmap string Z,
    decode_map (stream_of [("a"%string, 1); ("b"%string, 2)]) = Value m
    /\ m !! "b"%string = Some 2.
Proof.
  destruct (map_decode_keeps_every_key [("a"%string, 1); ("b"%string, 2)])
    as (m & Hdec & _ & Hall).
  exists m. split; [exact Hdec|].
  apply Hall.
  - apply (bool_decide_unpack _). vm_compute. exact I.
  - apply elem_of_cons. right. apply elem_of_cons. by left.
Defined.

(** ** [encode] *)

Lemma events_of_calls_app (a b : list call) :
  events_of_calls (a ++ b) = events_of_calls a ++ events_of_calls b.
Proof. apply omap_app. Qed.

Lemma balanced_name (s : list byte) (evs : list event) :
  balanced evs -> balanced (Name s :: evs).
Proof. intros Hb open. apply Hb. Qed.

Lemma balanced_concat (parts : list (list event)) :
  Forall balanced parts -> balanced (concat parts).
Proof.
  induction 1 as [|p ps Hp _ IH]; simpl; [apply balanced_nil|].
  by apply balanced_app.
Qed.

Section EncodeProperties.

Context {T : Type}.
Variable encode_value : T -> list call -> list call.
(** The events the element type's [encode] hands to the serializer. *)
Variable shown : T -> list event.
Hypothesis encode_value_shown : forall x s,
  events_of_calls (encode_value x s) = events_of_calls s ++ shown x.

Lemma encode_each_shown (val : list T) (s : list call) :
  events_of_calls (encode_each T encode_value val s)
  = events_of_calls s ++ concat (map shown val).
Proof.
  revert s. induction val as [|x rest IH]; intros s; simpl.
  - by rewrite app_nil_r.
  - by rewrite IH, encode_value_shown, <- app_assoc.
Qed.

Lemma encode_entries_shown (val : list (list byte * T)) (s : list call) :
  events_of_calls (encode_entries T encode_value val s)
  = events_of_calls s
    ++ concat (map (fun kv => Name kv.1 :: shown kv.2) val).
Proof.
  revert s. induction val as [|[k x] rest IH]; intros s; simpl.
  - by rewrite app_nil_r.
  - rewrite IH, encode_value_shown, events_of_calls_app. simpl.
    by rewrite <- !app_assoc.
Qed.

(** [encode] of a vector-like container and of a [std::array] hand the
    serializer [BeginArray], the events of the elements first to last,
    [EndArray], and end with a [flush()].  If the elements' events are
    balanced, so is what [encode] emitted. *)
Theorem sequence_encode_brackets_elements (val : list T) (s : list call) :
  events_of_calls (encode_vector T encode_value val s)
    = events_of_calls s ++ [BeginArray] ++ concat (map shown val) ++ [EndArray]
  /\ encode_array T encode_value val s = encode_vector T encode_value val s
  /\ last (encode_vector T encode_value val s) = Some Flush
  /\ ((forall x, balanced (shown x)) ->
        balanced ([BeginArray] ++ concat (map shown val) ++ [EndArray])).
Proof.
  split; [|split; [done|split]].
  - unfold encode_vector. rewrite !events_of_calls_app, encode_each_shown.
    rewrite events_of_calls_app. simpl. by rewrite <- !app_assoc, app_nil_r.
  - unfold encode_vector. apply last_snoc.
  - intros Hb. apply balanced_array, balanced_concat.
    apply Forall_forall. intros p Hp.
    apply list_elem_of_fmap in Hp as (x & -> & _). apply Hb.
Qed.

(** [encode] of a map-like container hands the serializer [BeginObject],
    for every entry in iteration order a [Name] with its key followed by
    the events of its value, [EndObject], and ends with a [flush()].  If the
    values' events are balanced, so is what [encode] emitted. *)
Theorem map_encode_names_every_entry
    (val : list (list byte * T)) (s : list call) :
  events_of_calls (encode_map T encode_value val s)
    = events_of_calls s ++ [BeginObject]
      ++ concat (map (fun kv => Name kv.1 :: shown kv.2) val) ++ [EndObject]
  /\ last (encode_map T encode_value val s) = Some Flush
  /\ ((forall x, balanced (shown x)) ->
        balanced ([BeginObject]
                  ++ concat (map (fun kv => Name kv.1 :: shown kv.2) val)
                  ++ [EndObject])).
Proof.
  split; [|split].
  - unfold encode_map. rewrite !events_of_calls_app, encode_entries_shown.
    rewrite events_of_calls_app. simpl. by rewrite <- !app_assoc, app_nil_r.
  - unfold encode_map. apply last_snoc.
  - intros Hb. apply balanced_object, balanced_concat.
    apply Forall_forall. intros p Hp.
    apply list_elem_of_fmap in Hp as ([k x] & -> & _).
    apply balanced_name, Hb.
Qed.

End EncodeProperties.

Lemma sequence_encode_brackets_elements_witness :
  events_of_calls
    (encode_vector Z (fun x s => s ++ [Event (Int64Value x tag_none)]) [1; 2] [])
  = [] ++ [BeginArray]
    ++ concat (map (fun x => [Int64Value x tag_none]) [1; 2]) ++ [EndArray].
Proof.
  apply (sequence_encode_brackets_elements
           (fun x s => s ++ [Event (Int64Value x tag_none)])
           (fun x => [Int64Value x tag_none])).
  intros x s. by rewrite events_of_calls_app.
Defined.

Lemma map_encode_names_every_entry_witness :
  events_of_calls
    (encode_map Z (fun x s => s ++ [Event (Int64Value x tag_none)])
       [([x61], 1); ([x62], 2)] [])
  = [] ++ [BeginObject]
    ++ concat (map (fun kv : list byte * Z =>
                      Name kv.1 :: [Int64Value kv.2 tag_none])
                 [([x61], 1); ([x62], 2)])
    ++ [EndObject].
Proof.
  apply (map_encode_names_every_entry
           (fun x s => s ++ [Event (Int64Value x tag_none)])
           (fun x => [Int64Value x tag_none])).
  intros x s. by rewrite events_of_calls_app.
Defined.

Lemma tuple_helper_from (Pos : nat) (tuple : list tuple_element)
    (handler : list call) :
  (Pos <= length tuple)%nat ->
  tuple_helper_encode Pos tuple handler
  = foldl (fun h el => element_encode el (element_value el) h) handler
      (drop (length tuple - Pos) tuple).
Proof.
  revert handler. induction Pos as [|next IH]; intros handler Hle.
  - by rewrite Nat.sub_0_r, drop_all.
  - cbn [tuple_helper_encode].
    destruct (tuple !! (length tuple - S next)%nat) as [el|] eqn:Hel.
    + rewrite IH by lia. rewrite (drop_S _ _ _ Hel). simpl.
      by replace (S (length tuple - S next)) with (length tuple - next)%nat by lia.
    + apply lookup_ge_None in Hel. lia.
Qed.

(** [encode] of a tuple hands the serializer [BeginArray], then every
    position encoded with its own type's [encode], first position first
    ([tuple_helper] counts [Pos] down from the size and encodes index
    size - [Pos]), then [EndArray]; unlike the other containers it does not
    flush. *)
Theorem tuple_encode_in_position_order
    (val : list tuple_element) (s : list call) :
  encode_tuple val s
  = foldl (fun h el => element_encode el (element_value el) h)
      (s ++ [Event BeginArray]) val
    ++ [Event EndArray].
Proof.
  unfold encode_tuple. rewrite tuple_helper_from by done.
  by rewrite Nat.sub_diag.
Qed.
